(** * A shallow embedding of the deno-redis client core

    The RESP2 reply decoder ([protocol/reply.ts]: [StreamBuffer], [readReply],
    the [*ReplyBody] readers), the request encoder ([protocol/command.ts]:
    [_writeCommand], [writeRequest], [sendCommands]), the multiplexing and
    pipeline executors ([executor.ts], [pipeline.ts]), connection
    establishment ([connection.ts]) and the subscription iterator
    ([pubsub.ts]). *)

From Stdlib Require Import String Ascii List ZArith Lia Bool.
Import ListNotations.
Set Warnings "-register-all".
Open Scope Z_scope.

(** ** Bytes, JS strings and JS numbers *)

(** A [Uint8Array]: its elements, each in 0..255. *)
Definition bytes := list Z.

(** A JS string, as its sequence of Unicode scalar values. *)
Definition jsstring := list Z.

(** A JS number produced by [parseInt]: [NaN], a finite double (always an
    integer here) or an infinity, [true] for the negative one.  [-0] is
    [Finite 0]: it compares, and prints through [String], as [0]. *)
Inductive number :=
| NaN
| Finite (z : Z)
| Infinity (negative : bool).

(** The code units of an ASCII literal. *)
Definition ascii_bytes (s : string) : list Z :=
  map (fun c => Z.of_nat (nat_of_ascii c)) (list_ascii_of_string s).

Definition in_range (lo hi b : Z) : bool := (lo <=? b) && (b <=? hi).

(** [TextEncoder.prototype.encode] on one scalar value. *)
Definition utf8_encode_cp (c : Z) : bytes :=
  if c <? 128 then [c]
  else if c <? 2048 then
    [Z.lor 192 (Z.shiftr c 6); Z.lor 128 (Z.land c 63)]
  else if c <? 65536 then
    [Z.lor 224 (Z.shiftr c 12); Z.lor 128 (Z.land (Z.shiftr c 6) 63);
     Z.lor 128 (Z.land c 63)]
  else
    [Z.lor 240 (Z.shiftr c 18); Z.lor 128 (Z.land (Z.shiftr c 12) 63);
     Z.lor 128 (Z.land (Z.shiftr c 6) 63); Z.lor 128 (Z.land c 63)].

Definition encode (s : jsstring) : bytes := flat_map utf8_encode_cp s.

(** [String.prototype.length]: the number of UTF-16 code units. *)
Definition js_length (s : jsstring) : Z :=
  fold_right (fun c n => (if 65536 <=? c then 2 else 1) + n) 0 s.

(** [TextDecoder.prototype.decode] (UTF-8, replacement mode), following the
    WHATWG decoder: a lead byte fixes the number of continuation bytes and the
    bounds of the first one; a byte outside the bounds yields U+FFFD and is
    decoded again as a lead byte. *)
Definition utf8_lead (b : Z) : option (nat * Z * Z * Z) :=
  if b <=? 127 then Some (0%nat, 128, 191, b)
  else if in_range 194 223 b then Some (1%nat, 128, 191, Z.land b 31)
  else if b =? 224 then Some (2%nat, 160, 191, Z.land b 15)
  else if b =? 237 then Some (2%nat, 128, 159, Z.land b 15)
  else if in_range 225 239 b then Some (2%nat, 128, 191, Z.land b 15)
  else if b =? 240 then Some (3%nat, 144, 191, Z.land b 7)
  else if b =? 244 then Some (3%nat, 128, 143, Z.land b 7)
  else if in_range 241 243 b then Some (3%nat, 128, 191, Z.land b 7)
  else None.

Fixpoint utf8_cont (need : nat) (lo hi cp : Z) (l : bytes) : (Z * bytes) + bytes :=
  match need with
  | O => inl (cp, l)
  | S n =>
      match l with
      | b :: r =>
          if in_range lo hi b
          then utf8_cont n 128 191 (Z.lor (Z.shiftl cp 6) (Z.land b 63)) r
          else inr l
      | [] => inr []
      end
  end.

Fixpoint utf8_decode_fuel (fuel : nat) (l : bytes) : jsstring :=
  match fuel with
  | O => []
  | S f =>
      match l with
      | [] => []
      | b :: r =>
          match utf8_lead b with
          | None => 65533 :: utf8_decode_fuel f r
          | Some (need, lo, hi, cp) =>
              match utf8_cont need lo hi cp r with
              | inl (c, r') => c :: utf8_decode_fuel f r'
              | inr r' => 65533 :: utf8_decode_fuel f r'
              end
          end
      end
  end.

(** The module-level [decoder] of [utils.ts] is a default [TextDecoder]: it
    drops a leading byte order mark. *)
Definition decode (l : bytes) : jsstring :=
  match l with
  | 239 :: 187 :: 191 :: r => utf8_decode_fuel (length r) r
  | _ => utf8_decode_fuel (length l) l
  end.

(** The integer [parseInt(s)] reads with no radix: leading white space, a
    sign, a [0x] prefix selecting radix 16, then the longest run of digits;
    [None] when there is no digit. *)
Definition js_whitespace (c : Z) : bool :=
  existsb (Z.eqb c) [9; 10; 11; 12; 13; 32; 160; 5760; 8232; 8233; 8239; 8287;
                     12288; 65279]
  || in_range 8192 8202 c.

Definition digit_value (radix c : Z) : option Z :=
  let d := if in_range 48 57 c then c - 48
           else if in_range 97 122 c then c - 87
           else if in_range 65 90 c then c - 55
           else radix in
  if d <? radix then Some d else None.

Fixpoint digit_run (radix : Z) (s : jsstring) : list Z :=
  match s with
  | [] => []
  | c :: r => match digit_value radix c with
              | Some d => d :: digit_run radix r
              | None => []
              end
  end.

Fixpoint skip_ws (s : jsstring) : jsstring :=
  match s with
  | c :: r => if js_whitespace c then skip_ws r else s
  | [] => []
  end.

Definition digits_to_Z (radix : Z) (ds : list Z) : Z :=
  fold_left (fun a d => a * radix + d) ds 0.

Definition parse_integer (s : jsstring) : option Z :=
  let s1 := skip_ws s in
  let '(sign, s2) := match s1 with
                     | 45 :: r => (-1, r)
                     | 43 :: r => (1, r)
                     | _ => (1, s1)
                     end in
  let '(radix, s3) := match s2 with
                      | 48 :: c :: r => if (c =? 120) || (c =? 88) then (16, r) else (10, s2)
                      | _ => (10, s2)
                      end in
  match digit_run radix s3 with
  | [] => None
  | ds => Some (sign * digits_to_Z radix ds)
  end.

(** The nearest double to a non-negative integer, ties to the even
    significand, with an unbounded exponent: every integer up to [2^53] is
    one, above it [53] significant bits are kept. *)
Definition round_to_double (a : Z) : Z :=
  if a <=? 2 ^ 53 then a
  else
    let e := Z.log2 a - 52 in
    let q := Z.shiftr a e in
    let rm := a - Z.shiftl q e in
    let h := Z.shiftl 1 (e - 1) in
    let q' := if (h <? rm) || ((rm =? h) && Z.odd q) then q + 1 else q in
    Z.shiftl q' e.

(** The number an integer denotes (ECMAScript's F(mathInt)); a rounded magnitude of
    [2^1024] or more overflows to an infinity. *)
Definition to_number (z : Z) : number :=
  let r := round_to_double (Z.abs z) in
  if 2 ^ 1024 <=? r then Infinity (z <? 0)
  else Finite (if z <? 0 then - r else r).

(** [parseInt(s)]: the digits' integer, rounded to a number.  ECMAScript
    lets an implementation replace the digits after the 20th by zeros before
    rounding; this is the choice of keeping them all. *)
Definition parseInt (s : jsstring) : number :=
  match parse_integer s with
  | None => NaN
  | Some z => to_number z
  end.

(** ** Errors and results *)

Inductive TransportFault :=
| BadResource | BrokenPipe | ConnectionAborted | ConnectionRefused
| ConnectionReset | OtherFault.

Inductive RedisError :=
| EOFError
| InvalidStateError
| ErrorReplyError (line : jsstring)
| InvalidLine (line : bytes)          (* [new Error(`invalid line: ...`)] *)
| RangeError                          (* [new Array(n)] with a bad length *)
| TypeError                           (* property read on [null] *)
| ConnectionClosedError
| AuthenticationError
| ClientClosed                        (* [new Error("Client is closed.")] *)
| Transport (k : TransportFault)
| FuelExhausted.                      (* unreachable at the fuel [readReply] gives *)

Inductive result (A : Type) :=
| Ok (a : A)
| Err (e : RedisError).
Arguments Ok {A} a.
Arguments Err {A} e.

(** ** The buffered reader [StreamBuffer]

    [buf] is the content of the internal [Buffer]; [src] the chunks the
    underlying [ReadableStreamDefaultReader] will still deliver before it
    reports [done]. *)
Record StreamBuffer := mkSB { buf : bytes; src : list bytes }.

Definition M (A : Type) := StreamBuffer -> result A * StreamBuffer.

Definition ret {A} (a : A) : M A := fun sb => (Ok a, sb).
Definition throw {A} (e : RedisError) : M A := fun sb => (Err e, sb).
Definition bind {A B} (m : M A) (k : A -> M B) : M B :=
  fun sb => match m sb with
            | (Ok a, sb') => k a sb'
            | (Err e, sb') => (Err e, sb')
            end.

Notation "'let*' x ':=' m 'in' k" := (bind m (fun x => k))
  (at level 200, x name, m at level 100, k at level 200).

(** [findCRLF]: the index of the first 13 immediately followed by 10. *)
Fixpoint find_crlf (l : bytes) : option nat :=
  match l with
  | a :: ((b :: _) as r) =>
      if (a =? 13) && (b =? 10) then Some 0%nat else option_map S (find_crlf r)
  | _ => None
  end.

Fixpoint readLine_loop (b : bytes) (s : list bytes) : result (option bytes) * StreamBuffer :=
  match find_crlf b with
  | Some i => (Ok (Some (firstn i b)), mkSB (skipn (i + 2) b) s)
  | None =>
      match s with
      | [] => match b with
              | [] => (Ok None, mkSB [] [])
              | _ => (Ok (Some b), mkSB [] [])
              end
      | c :: s' => readLine_loop (b ++ c) s'
      end
  end.

Definition readLine : M (option bytes) := fun sb => readLine_loop sb.(buf) sb.(src).

(** [ensureBufferSize]: pull chunks while the buffer is shorter than [n]. *)
Fixpoint ensure_loop (n : Z) (b : bytes) (s : list bytes) : StreamBuffer :=
  if Z.of_nat (length b) <? n then
    match s with
    | [] => mkSB b []
    | c :: s' => ensure_loop n (b ++ c) s'
    end
  else mkSB b s.

(** [readBytes(length)]; with [NaN] every comparison is false and
    [subarray(0, NaN)] is empty, so nothing is read or consumed. *)
Definition readBytes (len : option Z) : M bytes := fun sb =>
  match len with
  | None => (Ok [], sb)
  | Some n =>
      let sb1 := ensure_loop n sb.(buf) sb.(src) in
      if Z.of_nat (length sb1.(buf)) <? n then (Err InvalidStateError, sb1)
      else (Ok (firstn (Z.to_nat n) sb1.(buf)),
            mkSB (skipn (Z.to_nat n) sb1.(buf)) sb1.(src))
  end.

Definition peek (len : Z) : M (option bytes) := fun sb =>
  let sb1 := ensure_loop len sb.(buf) sb.(src) in
  match sb1.(buf) with
  | [] => (Ok None, sb1)
  | _ => (Ok (Some (firstn (Z.to_nat len) sb1.(buf))), sb1)
  end.

(** ** Reply frames ([reply.ts]) *)

(** The JS values a decoded array holds ([types.ConditionalArray]): decoded
    strings, numbers, [null] and nested arrays. *)
Inductive Raw :=
| RStr (s : jsstring)
| RNum (n : number)
| RNull
| RArr (l : list Raw).

Inductive RedisReply :=
| SimpleStringReply (body : bytes)
| BulkReply (body : option bytes)
| IntegerReply (body : bytes)
| ArrayReply (body : option (list Raw)).

Definition IntegerReplyCode : Z := 58.   (* ':' *)
Definition BulkReplyCode : Z := 36.      (* '$' *)
Definition SimpleStringCode : Z := 43.   (* '+' *)
Definition ArrayReplyCode : Z := 42.     (* '*' *)
Definition ErrorReplyCode : Z := 45.     (* '-' *)

(** [BulkReply.bulk()]: [this.#body ? decode : null]; a [Uint8Array], even an
    empty one, is truthy. *)
Definition bulk_of (body : option bytes) : Raw :=
  match body with
  | Some b => RStr (decode b)
  | None => RNull
  end.

(** [reply.value()] of each reply class. *)
Definition reply_value (r : RedisReply) : Raw :=
  match r with
  | SimpleStringReply b => RStr (decode b)
  | BulkReply b => bulk_of b
  | IntegerReply b => RNum (parseInt (decode b))
  | ArrayReply None => RNull
  | ArrayReply (Some l) => RArr l
  end.

(** [reply.array()]: only an [ArrayReply] has one; the others throw
    [createDecodeError], an [InvalidStateError]. *)
Definition reply_array (r : RedisReply) : result (option (list Raw)) :=
  match r with
  | ArrayReply b => Ok b
  | _ => Err InvalidStateError
  end.

Definition line_head (l : bytes) : Z := nth 0 l (-1).

(** [tryParseErrorReply(line)]: the error it throws. *)
Definition tryParseErrorReply (line : bytes) : RedisError :=
  if line_head line =? ErrorReplyCode then ErrorReplyError (decode line)
  else InvalidLine line.

(** [parseSize(line)] is [parseInt(decoder.decode(line.subarray(1)))]; the
    size is kept as the exact integer, [None] for [NaN].  Rounding it to a
    number changes no size up to [2^53] and maps no other size below [2^53]
    or to [-1]; a size above [2^53] exceeds the longest [Uint8Array]
    ([2^53 - 1] elements) the buffer could hold, a bound the unbounded lists
    of this model do not have. *)
Definition parseSize (line : bytes) : option Z := parse_integer (decode (skipn 1 line)).

Definition readIntegerReplyBody : M bytes :=
  let* line := readLine in
  match line with
  | None => throw InvalidStateError
  | Some l => ret (skipn 1 l)
  end.

Definition readBulkReplyBody : M (option bytes) :=
  let* line := readLine in
  match line with
  | None => throw InvalidStateError
  | Some l =>
      if negb (line_head l =? BulkReplyCode) then throw (tryParseErrorReply l) else
      let size := parseSize l in
      match size with
      | Some n => if n <? 0 then ret None else
          let* bulkData := readBytes size in
          let* crlf := readBytes (Some 2) in
          if negb (nth 0 crlf (-1) =? 13) || negb (nth 1 crlf (-1) =? 10)
          then throw InvalidStateError
          else ret (Some bulkData)
      | None =>
          let* bulkData := readBytes size in
          let* crlf := readBytes (Some 2) in
          if negb (nth 0 crlf (-1) =? 13) || negb (nth 1 crlf (-1) =? 10)
          then throw InvalidStateError
          else ret (Some bulkData)
      end
  end.

Definition readSimpleStringReplyBody : M bytes :=
  let* line := readLine in
  match line with
  | None => throw InvalidStateError
  | Some l =>
      if negb (line_head l =? SimpleStringCode) then throw (tryParseErrorReply l)
      else ret (skipn 1 l)
  end.

(** [readArrayReplyBody]; the recursion on nested arrays and the element loop
    are bounded by a fuel, one more than the bytes the stream holds being
    enough since every element consumes at least one byte. *)
Fixpoint readArrayReplyBody (fuel : nat) : M (option (list Raw)) :=
  match fuel with
  | O => throw FuelExhausted
  | S f =>
      let read_element : M Raw :=
        let* p := peek 1 in
        match p with
        | None => throw EOFError
        | Some pb =>
            let code := line_head pb in
            if code =? SimpleStringCode then
              let* body := readSimpleStringReplyBody in ret (RStr (decode body))
            else if code =? BulkReplyCode then
              let* body := readBulkReplyBody in ret (bulk_of body)
            else if code =? IntegerReplyCode then
              let* body := readIntegerReplyBody in ret (RNum (parseInt (decode body)))
            else if code =? ArrayReplyCode then
              let* body := readArrayReplyBody f in
              ret (reply_value (ArrayReply body))
            else throw InvalidStateError
        end in
      let fix loop (g : nat) (k : Z) : M (list Raw) :=
        match g with
        | O => throw FuelExhausted
        | S g' =>
            if k <=? 0 then ret []
            else let* x := read_element in
                 let* xs := loop g' (k - 1) in
                 ret (x :: xs)
        end in
      let* line := readLine in
      match line with
      | None => throw InvalidStateError
      | Some l =>
          match parseSize l with
          | Some n =>
              if n =? -1 then ret None
              else if (n <? 0) || (4294967296 <=? n) then throw RangeError
              else let* xs := loop (S f) n in ret (Some xs)
          | None => throw RangeError
          end
      end
  end.

(** The body of [readReply] on its [StreamBuffer]. *)
Definition readReply_sb (fuel : nat) : M RedisReply :=
  let* firstByte := peek 1 in
  match firstByte with
  | None => throw EOFError
  | Some [] => throw EOFError
  | Some pb =>
      let code := line_head pb in
      let* _ := (if code =? ErrorReplyCode then
                   let* line := readLine in
                   match line with
                   | Some l => throw (tryParseErrorReply l)
                   | None => ret tt
                   end
                 else ret tt) in
      if code =? IntegerReplyCode then
        let* b := readIntegerReplyBody in ret (IntegerReply b)
      else if code =? SimpleStringCode then
        let* b := readSimpleStringReplyBody in ret (SimpleStringReply b)
      else if code =? BulkReplyCode then
        let* b := readBulkReplyBody in ret (BulkReply b)
      else if code =? ArrayReplyCode then
        let* b := readArrayReplyBody fuel in ret (ArrayReply b)
      else throw InvalidStateError
  end.

(** [readReply(reader)]: a fresh [StreamBuffer] over the reader, dropped when
    the call returns; what remains of the reader is what it has not yet
    delivered. *)
Definition readReply (reader : list bytes) : result RedisReply * list bytes :=
  let sb0 := mkSB [] reader in
  let '(r, sb1) := readReply_sb (S (length (concat reader))) sb0 in
  (r, sb1.(src)).

(** ** Request encoding ([command.ts]) *)

From Stdlib Require Import Decimal DecimalN.

(** [RedisValue]: a string, a number (here an integer) or a [Uint8Array];
    callers may also pass [null] or [undefined] for omitted options. *)
Inductive RedisValue :=
| VStr (s : jsstring)
| VNum (n : Z)
| VBytes (b : bytes)
| VNull
| VUndefined.

Fixpoint uint_digits (d : Decimal.uint) : list Z :=
  match d with
  | Decimal.Nil => []
  | Decimal.D0 d => 48 :: uint_digits d
  | Decimal.D1 d => 49 :: uint_digits d
  | Decimal.D2 d => 50 :: uint_digits d
  | Decimal.D3 d => 51 :: uint_digits d
  | Decimal.D4 d => 52 :: uint_digits d
  | Decimal.D5 d => 53 :: uint_digits d
  | Decimal.D6 d => 54 :: uint_digits d
  | Decimal.D7 d => 55 :: uint_digits d
  | Decimal.D8 d => 56 :: uint_digits d
  | Decimal.D9 d => 57 :: uint_digits d
  end.

(** [String(n)] for an integer [n] (below 1e21, where JS switches to
    exponent notation). *)
Definition show_Z (n : Z) : jsstring :=
  match n with
  | Zneg p => 45 :: uint_digits (N.to_uint (Npos p))
  | _ => uint_digits (N.to_uint (Z.to_N n))
  end.

Definition CRLF : bytes := [13; 10].

(** [String(arg)], then [encoder.encode], unless [arg] is a [Uint8Array]. *)
Definition arg_bytes (v : RedisValue) : bytes :=
  match v with
  | VBytes b => b
  | VStr s => encode s
  | VNum n => encode (show_Z n)
  | VNull => ascii_bytes "null"
  | VUndefined => ascii_bytes "undefined"
  end.

(** [v !== void 0 && v !== null] *)
Definition is_present (v : RedisValue) : bool :=
  match v with
  | VNull | VUndefined => false
  | _ => true
  end.

Definition bulk_frame (b : bytes) : bytes :=
  ascii_bytes "$" ++ encode (show_Z (Z.of_nat (length b))) ++ CRLF ++ b ++ CRLF.

(** The bytes [_writeCommand] writes into the request buffer, which
    [writeRequest] then sends in one write.  The command's bulk length is
    [String(command.length)]. *)
Definition writeRequest (command : jsstring) (args : list RedisValue) : bytes :=
  let _args := filter is_present args in
  ascii_bytes "*" ++ encode (show_Z (1 + Z.of_nat (length _args))) ++ CRLF ++
  ascii_bytes "$" ++ encode (show_Z (js_length command)) ++ CRLF ++
  encode command ++ CRLF ++
  flat_map (fun arg => bulk_frame (arg_bytes arg)) _args.

(** A reference RESP2 parser for a request frame, after the wire format of
    the spec: [*<n>\r\n] then [n] times [$<len>\r\n<len bytes>\r\n]. *)
Fixpoint ref_line (l : bytes) : option (bytes * bytes) :=
  match l with
  | 13 :: 10 :: r => Some ([], r)
  | c :: r => option_map (fun '(a, b) => (c :: a, b)) (ref_line r)
  | [] => None
  end.

Fixpoint digits_uint (ds : list Z) : option Decimal.uint :=
  match ds with
  | [] => Some Decimal.Nil
  | c :: r =>
      match digits_uint r with
      | None => None
      | Some u =>
          if c =? 48 then Some (Decimal.D0 u) else if c =? 49 then Some (Decimal.D1 u)
          else if c =? 50 then Some (Decimal.D2 u) else if c =? 51 then Some (Decimal.D3 u)
          else if c =? 52 then Some (Decimal.D4 u) else if c =? 53 then Some (Decimal.D5 u)
          else if c =? 54 then Some (Decimal.D6 u) else if c =? 55 then Some (Decimal.D7 u)
          else if c =? 56 then Some (Decimal.D8 u) else if c =? 57 then Some (Decimal.D9 u)
          else None
      end
  end.

Definition ref_count (ds : bytes) : option nat :=
  match ds with
  | [] => None
  | _ => option_map (fun u => N.to_nat (N.of_uint u)) (digits_uint ds)
  end.

Definition ref_bulk (l : bytes) : option (bytes * bytes) :=
  match l with
  | 36 :: r =>
      match ref_line r with
      | Some (hdr, r') =>
          match ref_count hdr with
          | Some n =>
              match skipn n r' with
              | 13 :: 10 :: r'' =>
                  if Nat.leb n (length r') then Some (firstn n r', r'') else None
              | _ => None
              end
          | None => None
          end
      | None => None
      end
  | _ => None
  end.

Fixpoint ref_bulks (k : nat) (l : bytes) : option (list bytes * bytes) :=
  match k with
  | O => Some ([], l)
  | S k' =>
      match ref_bulk l with
      | Some (b, r) =>
          option_map (fun '(bs, r') => (b :: bs, r')) (ref_bulks k' r)
      | None => None
      end
  end.

Definition ref_parse_array (l : bytes) : option (list bytes * bytes) :=
  match l with
  | 42 :: r =>
      match ref_line r with
      | Some (hdr, r') =>
          match ref_count hdr with
          | Some n => ref_bulks n r'
          | None => None
          end
      | None => None
      end
  | _ => None
  end.

(** ** The multiplexing executor ([executor.ts], [MuxExecutor])

    A state of the executor between two turns of the event loop.  [phase]
    says where the one running [dequeue] is suspended: awaiting
    [sendCommand] for the head of the queue, or awaiting
    [connection.reconnect()].  The caller-visible effects are recorded in
    [log]: a caller is identified by [qid], and [Resolved]/[Rejected] are the
    calls of its resolver/rejecter. *)

Record QueuedCommand := mkQueued {
  qid : nat;
  qcommand : jsstring;
  qargs : list RedisValue }.

Inductive Phase := Idle | Sending | Reconnecting.

Inductive MuxEvent :=
| Submitted (id : nat)
| RejectedClosed (id : nat)
| SendStart (id : nat)
| SendEnd (id : nat)
| Resolved (id : nat) (reply : RedisReply)
| Rejected (id : nat) (e : RedisError).

Record MuxState := mkMux {
  queue : list QueuedCommand;
  isProcessing : bool;
  phase : Phase;
  isClosed : bool;          (* [connection.isClosed] *)
  maxRetryCount : Z;        (* [connection.maxRetryCount] *)
  log : list MuxEvent }.

Definition with_log (st : MuxState) (l : list MuxEvent) : MuxState :=
  mkMux st.(queue) st.(isProcessing) st.(phase) st.(isClosed) st.(maxRetryCount) l.

(** [isRetriableError(error, connection)] *)
Definition isRetriableError (e : RedisError) (closed : bool) : bool :=
  if closed then false else
  match e with
  | Transport BadResource | Transport BrokenPipe | Transport ConnectionAborted
  | Transport ConnectionRefused | Transport ConnectionReset | EOFError => true
  | _ => false
  end.

(** [dequeue()] up to its first [await]: the [sendCommand] of the head. *)
Definition dequeue (st : MuxState) : MuxState :=
  if st.(isProcessing) then st else
  match st.(queue) with
  | [] => mkMux [] false st.(phase) st.(isClosed) st.(maxRetryCount) st.(log)
  | item :: _ =>
      mkMux st.(queue) true Sending st.(isClosed) st.(maxRetryCount)
            (st.(log) ++ [SendStart item.(qid)])
  end.

(** [exec(command, ...args)]: the rejection it returns at once, or the
    pending promise ([Ok tt]). *)
Definition mux_exec (st : MuxState) (q : QueuedCommand) : result unit * MuxState :=
  if st.(isClosed) then
    (Err ConnectionClosedError, with_log st (st.(log) ++ [RejectedClosed q.(qid)]))
  else
    let st1 := mkMux (st.(queue) ++ [q]) st.(isProcessing) st.(phase) st.(isClosed)
                     st.(maxRetryCount) (st.(log) ++ [Submitted q.(qid)]) in
    (Ok tt, if st1.(isProcessing) then st1 else dequeue st1).

(** The [finally] block: clear the flag, and run [dequeue] again if the
    queue is not empty. *)
Definition mux_finally (st : MuxState) : MuxState :=
  let st1 := mkMux st.(queue) false Idle st.(isClosed) st.(maxRetryCount) st.(log) in
  match st1.(queue) with
  | [] => st1
  | _ => dequeue st1
  end.

(** Resuming [dequeue] when [sendCommand] settles with [r]. *)
Definition mux_send_done (st : MuxState) (r : result RedisReply) : MuxState :=
  match st.(phase), st.(queue) with
  | Sending, item :: rest =>
      match r with
      | Ok reply =>
          mux_finally (mkMux rest true Sending st.(isClosed) st.(maxRetryCount)
                         (st.(log) ++ [SendEnd item.(qid); Resolved item.(qid) reply]))
      | Err e =>
          if (0 <? st.(maxRetryCount)) && isRetriableError e st.(isClosed) then
            mkMux st.(queue) true Reconnecting st.(isClosed) st.(maxRetryCount)
                  (st.(log) ++ [SendEnd item.(qid)])
          else
            mux_finally (mkMux rest true Sending st.(isClosed) st.(maxRetryCount)
                           (st.(log) ++ [SendEnd item.(qid); Rejected item.(qid) e]))
      end
  | _, _ => st
  end.

(** Resuming [dequeue] when [connection.reconnect()] settles with [r]. *)
Definition mux_reconnect_done (st : MuxState) (r : result unit) : MuxState :=
  match st.(phase), st.(queue) with
  | Reconnecting, item :: rest =>
      match r with
      | Ok _ => mux_finally st
      | Err e =>
          mux_finally (mkMux rest true Reconnecting st.(isClosed) st.(maxRetryCount)
                         (st.(log) ++ [Rejected item.(qid) e]))
      end
  | _, _ => st
  end.

Definition set_closed (b : bool) (st : MuxState) : MuxState :=
  mkMux st.(queue) st.(isProcessing) st.(phase) b st.(maxRetryCount) st.(log).

(** The interleavings the event loop allows: any caller may submit between
    two turns; the pending [sendCommand] or [reconnect] may settle with any
    outcome; the user may close the connection; and while [reconnect] runs,
    its own [close()] and [connect()] flip the closed flag. *)
Inductive mux_step : MuxState -> MuxState -> Prop :=
| step_exec st q : mux_step st (snd (mux_exec st q))
| step_send st r : st.(phase) = Sending -> mux_step st (mux_send_done st r)
| step_reconnect st r : st.(phase) = Reconnecting -> mux_step st (mux_reconnect_done st r)
| step_close st : mux_step st (set_closed true st)
| step_reconnect_flag st b : st.(phase) = Reconnecting -> mux_step st (set_closed b st).

Definition mux_init (closed : bool) (maxRetry : Z) : MuxState :=
  mkMux [] false Idle closed maxRetry [].

Inductive mux_reachable : MuxState -> Prop :=
| reach_init closed maxRetry : mux_reachable (mux_init closed maxRetry)
| reach_step st st' : mux_reachable st -> mux_step st st' -> mux_reachable st'.

(** Observations on the log. *)
Definition enqueued (l : list MuxEvent) : list nat :=
  flat_map (fun e => match e with Submitted i => [i] | _ => [] end) l.

Definition completed (l : list MuxEvent) : list nat :=
  flat_map (fun e => match e with Resolved i _ | Rejected i _ => [i] | _ => [] end) l.

(** The send in flight after a log, or [None] if two sends overlap or a send
    ends that was not in flight. *)
Definition serial_step (o : option (option nat)) (e : MuxEvent) : option (option nat) :=
  match o, e with
  | Some None, SendStart i => Some (Some i)
  | Some (Some _), SendStart _ => None
  | Some (Some i), SendEnd j => if Nat.eqb i j then Some None else None
  | Some None, SendEnd _ => None
  | _, _ => o
  end.

Definition in_flight (l : list MuxEvent) : option (option nat) :=
  fold_left serial_step l (Some None).

(** Every [Resolved i r] comes right after [SendEnd i]: the reply a caller
    gets is the one read for its own send. *)
Definition reply_step (acc : bool * option MuxEvent) (e : MuxEvent) : bool * option MuxEvent :=
  let '(ok, prev) := acc in
  match e with
  | Resolved i _ =>
      (ok && match prev with Some (SendEnd j) => Nat.eqb i j | _ => false end, Some e)
  | _ => (ok, Some e)
  end.

Definition replies_follow_sends (l : list MuxEvent) : bool :=
  fst (fold_left reply_step l (true, None)).

(** ** Batched send ([sendCommands]) and the pipeline ([pipeline.ts]) *)

(** [RawOrError]: a reply's value, or the [ErrorReplyError] it raised. *)
Inductive RawOrError :=
| RValue (v : Raw)
| RError (e : RedisError).

Definition Command := (jsstring * list RedisValue)%type.

(** One [sendCommand(writer, reader, command, ...args)] over the
    connection: the reply or the exception it settles with, and the
    connection state after it. *)
Definition SendFn (S : Type) := jsstring -> list RedisValue -> S -> result RedisReply * S.

Fixpoint sendCommands {S} (send : SendFn S) (commands : list Command) (s : S)
  : result (list RawOrError) * S :=
  match commands with
  | [] => (Ok [], s)
  | (command, args) :: rest =>
      let '(r, s1) := send command args s in
      let push (x : RawOrError) :=
        let '(rs, s2) := sendCommands send rest s1 in
        (match rs with Ok l => Ok (x :: l) | Err e => Err e end, s2) in
      match r with
      | Ok reply => push (RValue (reply_value reply))
      | Err (ErrorReplyError m) => push (RError (ErrorReplyError m))
      | Err e => (Err e, s1)
      end
  end.

(** What the connection yields for each command of a batch sent one after
    the other: the observation the positional statements are about. *)
Fixpoint transport_outcomes {S} (send : SendFn S) (commands : list Command) (s : S)
  : list (result RedisReply) :=
  match commands with
  | [] => []
  | (command, args) :: rest =>
      let '(r, s1) := send command args s in r :: transport_outcomes send rest s1
  end.

Definition is_error_reply (e : RedisError) : bool :=
  match e with ErrorReplyError _ => true | _ => false end.

Definition no_fault (r : result RedisReply) : bool :=
  match r with Ok _ => true | Err e => is_error_reply e end.

Definition as_raw_or_error (r : result RedisReply) : RawOrError :=
  match r with
  | Ok reply => RValue (reply_value reply)
  | Err e => RError e
  end.

Definition okReply : RedisReply := SimpleStringReply (ascii_bytes "OK").

Record PipelineState := mkPipe {
  p_commands : list Command;
  p_tx : bool;
  p_closed : bool }.          (* [connection.isClosed], never read *)

(** [PipelineExecutor.exec] *)
Definition pipeline_exec (p : PipelineState) (command : jsstring) (args : list RedisValue)
  : result RedisReply * PipelineState :=
  (Ok okReply, mkPipe (p.(p_commands) ++ [(command, args)]) p.(p_tx) p.(p_closed)).

Definition MULTI : jsstring := ascii_bytes "MULTI".
Definition EXEC : jsstring := ascii_bytes "EXEC".

(** [commandsToFlush] in [flush()] *)
Definition flush_batch (p : PipelineState) : list Command :=
  let commandsToFlush := p.(p_commands) in
  if p.(p_tx) then (MULTI, []) :: commandsToFlush ++ [(EXEC, [])]
  else commandsToFlush.

(** [PipelineExecutor.flush]: the pipeline state once the snapshot is taken
    (before the first [await]), and the outcome of the flush. *)
Definition pipeline_flush {S} (send : SendFn S) (p : PipelineState) (s : S)
  : PipelineState * (result (list RawOrError) * S) :=
  let commandsToFlush := flush_batch p in
  let p' := mkPipe [] p.(p_tx) p.(p_closed) in
  match commandsToFlush with
  | [] => (p', (Ok [], s))
  | _ => (p', sendCommands send commandsToFlush s)
  end.

(** A transport wrapper that records every command handed to it. *)
Definition recording {S} (send : SendFn S) : SendFn (list Command * S) :=
  fun c a '(sent, s) => let '(r, s') := send c a s in (r, (sent ++ [(c, a)], s')).

(** ** Connection establishment ([connection.ts], [RedisConnection]) *)

Record ConnOptions := mkOptions {
  password : option jsstring;
  username : option jsstring;
  db : Z;
  name : option jsstring }.

Record ConnState := mkConn {
  c_closed : bool;           (* [_isClosed] *)
  c_connected : bool;        (* [_isConnected] *)
  retryCount : Z;
  c_maxRetryCount : Z }.

Inductive ConnEvent :=
| Dial
| Sent (command : jsstring) (args : list RedisValue)
| Delay (attempt : Z)
| CloseSocket.

(** What one dial attempt gives: a dial error, or a socket whose server
    answers the handshake commands with the given replies (a missing reply
    is an end of stream). *)
Inductive DialOutcome :=
| DialFail (e : RedisError)
| DialOk (replies : list (result RedisReply)).

Definition truthy (s : option jsstring) : bool :=
  match s with Some (_ :: _) => true | _ => false end.

(** The private [sendCommand] on the handshake's replies. *)
Definition hs_send (command : jsstring) (args : list RedisValue)
  (rs : list (result RedisReply)) : result unit * list (result RedisReply) * list ConnEvent :=
  match rs with
  | [] => (Err EOFError, [], [Sent command args])
  | Ok _ :: rs' => (Ok tt, rs', [Sent command args])
  | Err e :: rs' => (Err e, rs', [Sent command args])
  end.

(** [authenticate(username, password)]: an error reply becomes an
    [AuthenticationError]. *)
Definition authenticate (username : option jsstring) (pw : jsstring)
  (rs : list (result RedisReply)) : result unit * list (result RedisReply) * list ConnEvent :=
  let '(r, rs', ev) :=
    if truthy (Some pw) && truthy username then
      hs_send (ascii_bytes "AUTH") [VStr (match username with Some u => u | None => [] end); VStr pw] rs
    else hs_send (ascii_bytes "AUTH") [VStr pw] rs in
  match r with
  | Err (ErrorReplyError _) => (Err AuthenticationError, rs', ev)
  | _ => (r, rs', ev)
  end.

(** The inner [try] of [connect()]: AUTH, SELECT, CLIENT SETNAME. *)
Definition handshake (o : ConnOptions) (rs : list (result RedisReply))
  : result unit * list ConnEvent :=
  let '(r1, rs1, ev1) :=
    match o.(password) with
    | Some pw => authenticate o.(username) pw rs
    | None => (Ok tt, rs, [])
    end in
  match r1 with
  | Err e => (Err e, ev1)
  | Ok _ =>
      let '(r2, rs2, ev2) :=
        if negb (o.(db) =? 0) then hs_send (ascii_bytes "SELECT") [VNum o.(db)] rs1
        else (Ok tt, rs1, []) in
      match r2 with
      | Err e => (Err e, ev1 ++ ev2)
      | Ok _ =>
          let '(r3, _, ev3) :=
            if truthy o.(name) then
              hs_send (ascii_bytes "CLIENT")
                [VStr (ascii_bytes "SETNAME"); VStr (match o.(name) with Some n => n | None => [] end)] rs2
            else (Ok tt, rs2, []) in
          (r3, ev1 ++ ev2 ++ ev3)
      end
  end.

Definition with_retry (st : ConnState) (n : Z) : ConnState :=
  mkConn st.(c_closed) st.(c_connected) n st.(c_maxRetryCount).

(** [connect()]: attempt [attempt] uses [dial attempt]; a failure other
    than an [AuthenticationError] is retried after [delay(backoff(n))] while
    [retryCount++ < maxRetryCount].  The fuel bounds the recursion: there are
    at most [maxRetryCount - retryCount + 1] attempts. *)
Fixpoint connect_loop (fuel : nat) (attempt : nat) (o : ConnOptions) (st : ConnState)
  (dial : nat -> DialOutcome) : result unit * ConnState * list ConnEvent :=
  match fuel with
  | O => (Err FuelExhausted, st, [])
  | S f =>
      let on_error (e : RedisError) (st0 : ConnState) (ev : list ConnEvent) :=
        match e with
        | AuthenticationError => (Err e, with_retry st0 0, ev)
        | _ =>
            if st0.(c_maxRetryCount) <=? st0.(retryCount) then (Err e, with_retry st0 0, ev)
            else
              let st1 := with_retry st0 (st0.(retryCount) + 1) in
              let '(r, st2, ev') := connect_loop f (S attempt) o st1 dial in
              (r, st2, ev ++ Delay st1.(retryCount) :: ev')
        end in
      match dial attempt with
      | DialFail e => on_error e st [Dial]
      | DialOk rs =>
          let st1 := mkConn false true st.(retryCount) st.(c_maxRetryCount) in
          let '(r, ev) := handshake o rs in
          match r with
          | Ok _ => (Ok tt, with_retry st1 0, Dial :: ev)
          | Err e =>
              on_error e (mkConn true false st1.(retryCount) st1.(c_maxRetryCount))
                (Dial :: ev ++ [CloseSocket])
          end
      end
  end.

Definition connect (o : ConnOptions) (st : ConnState) (dial : nat -> DialOutcome)
  : result unit * ConnState * list ConnEvent :=
  connect_loop (S (S (Z.to_nat (st.(c_maxRetryCount) - st.(retryCount))))) 0 o st dial.

(** ** The subscription iterator ([pubsub.ts], [#_receive]) *)

Record PubSubMessage := mkMsg {
  msg_pattern : option Raw;
  msg_channel : Raw;
  msg_message : Raw }.

(** What one turn of the [while] loop does with the outcome of [readReply]. *)
Inductive ReceiveAction :=
| Yield (m : PubSubMessage)
| Skip                          (* nothing yielded, loop again *)
| Reconnect                     (* [forceReconnect]: reconnect, resubscribe *)
| Raise (e : RedisError)        (* the iterator throws *)
| Stop.                         (* [connection.close(); break] *)

Definition raw_is (s : string) (v : option Raw) : bool :=
  match v with
  | Some (RStr x) => if list_eq_dec Z.eq_dec x (ascii_bytes s) then true else false
  | _ => false
  end.

(** [binary ? messageData : (messageData instanceof Uint8Array ?
    decoder.decode(messageData) : messageData)]; an element of a decoded
    array is never a [Uint8Array]. *)
Definition message_data (binary : bool) (v : Raw) : Raw :=
  if binary then v else v.

Definition receive_step (binary : bool) (r : result RedisReply) : ReceiveAction :=
  match r with
  | Err (Transport BadResource) => Stop
  | Err InvalidStateError => Reconnect
  | Err e => Raise e
  | Ok reply =>
      match reply_array reply with
      | Err InvalidStateError => Reconnect
      | Err e => Raise e
      | Ok None => Raise TypeError          (* [rep[0]] on [null] *)
      | Ok (Some rep) =>
          let ev := nth_error rep 0 in
          if raw_is "message" ev && Nat.eqb (length rep) 3 then
            Yield (mkMsg None (nth 1 rep RNull) (message_data binary (nth 2 rep RNull)))
          else if raw_is "pmessage" ev && Nat.eqb (length rep) 4 then
            Yield (mkMsg (Some (nth 1 rep RNull)) (nth 2 rep RNull)
                         (message_data binary (nth 3 rep RNull)))
          else Skip
      end
  end.

(** ** Observations used by the statements *)

(** The outcome each caller's promise settles with, in the order the
    executor settles them. *)
Definition outcomes (l : list MuxEvent) : list (nat * result RedisReply) :=
  flat_map (fun e => match e with
                     | Resolved i r => [(i, Ok r)]
                     | Rejected i e => [(i, Err e)]
                     | _ => []
                     end) l.

(** One retry of the head: the send fails with [e], [reconnect] succeeds. *)
Definition retry_round (e : RedisError) (st : MuxState) : MuxState :=
  mux_reconnect_done (mux_send_done st (Err e)) (Ok tt).

Definition phase_is_idle (p : Phase) : bool :=
  match p with Idle => true | _ => false end.

(** The invariant of the drain: the callers settled so far followed by those
    still queued are the callers that were queued, in order; the drain runs
    exactly when the queue is non-empty; the send in flight is the head's. *)
Definition mux_inv (st : MuxState) : Prop :=
  enqueued st.(log) = completed st.(log) ++ map qid st.(queue) /\
  (st.(phase) = Idle <-> st.(queue) = []) /\
  st.(isProcessing) = negb (phase_is_idle st.(phase)) /\
  in_flight st.(log) =
    Some (match st.(phase), st.(queue) with
          | Sending, item :: _ => Some item.(qid)
          | _, _ => None
          end) /\
  replies_follow_sends st.(log) = true.

(** Everything the [StreamBuffer] still holds or will still read. *)
Definition content (sb : StreamBuffer) : bytes := sb.(buf) ++ concat sb.(src).

(** The value of a run of ASCII decimal digits. *)
Definition decimal_value (ds : list Z) : Z :=
  digits_to_Z 10 (map (fun c => c - 48) ds).

Definition is_digit (c : Z) : bool := in_range 48 57 c.

(** ** Subscription bookkeeping ([pubsub.ts], [RedisSubscriptionImpl])

    [channels] and [patterns] are objects made by [Object.create(null)]
    used as sets: their own keys, in creation order. *)
Record Subscription := mkSubscription {
  channels : list jsstring;
  patterns : list jsstring }.

(** [obj[k] = true]: a new key goes last, an existing one keeps its place. *)
Definition obj_set (m : list jsstring) (k : jsstring) : list jsstring :=
  if in_dec (list_eq_dec Z.eq_dec) k m then m else m ++ [k].

(** [delete obj[k]] *)
Definition obj_delete (m : list jsstring) (k : jsstring) : list jsstring :=
  filter (fun x => if list_eq_dec Z.eq_dec x k then false else true) m.

(** An array index: the canonical decimal form of an integer below
    [2^32 - 1]. *)
Definition is_array_index (k : jsstring) : bool :=
  match k with
  | [] => false
  | 48 :: _ :: _ => false
  | _ => forallb is_digit k && (decimal_value k <? 4294967295)
  end.

Fixpoint insert_index (k : jsstring) (l : list jsstring) : list jsstring :=
  match l with
  | [] => [k]
  | x :: r => if decimal_value k <? decimal_value x then k :: x :: r
              else x :: insert_index k r
  end.

(** [Object.keys(obj)]: the array-index keys in ascending numeric order,
    then the other keys in creation order. *)
Definition object_keys (m : list jsstring) : list jsstring :=
  fold_right insert_index [] (filter is_array_index m) ++
  filter (fun k => negb (is_array_index k)) m.

(** [subscribe(...channels)]: the [SUBSCRIBE] command through the executor;
    the channels are recorded once it has succeeded. *)
Definition sub_subscribe {S} (exec : SendFn S) (chans : list jsstring)
  (sub : Subscription) (s : S) : result unit * Subscription * S :=
  let '(r, s1) := exec (ascii_bytes "SUBSCRIBE") (map VStr chans) s in
  match r with
  | Err e => (Err e, sub, s1)
  | Ok _ => (Ok tt, mkSubscription (fold_left obj_set chans sub.(channels)) sub.(patterns), s1)
  end.

Definition sub_unsubscribe {S} (exec : SendFn S) (chans : list jsstring)
  (sub : Subscription) (s : S) : result unit * Subscription * S :=
  let '(r, s1) := exec (ascii_bytes "UNSUBSCRIBE") (map VStr chans) s in
  match r with
  | Err e => (Err e, sub, s1)
  | Ok _ => (Ok tt, mkSubscription (fold_left obj_delete chans sub.(channels)) sub.(patterns), s1)
  end.

Definition sub_psubscribe {S} (exec : SendFn S) (pats : list jsstring)
  (sub : Subscription) (s : S) : result unit * Subscription * S :=
  let '(r, s1) := exec (ascii_bytes "PSUBSCRIBE") (map VStr pats) s in
  match r with
  | Err e => (Err e, sub, s1)
  | Ok _ => (Ok tt, mkSubscription sub.(channels) (fold_left obj_set pats sub.(patterns)), s1)
  end.

Definition sub_punsubscribe {S} (exec : SendFn S) (pats : list jsstring)
  (sub : Subscription) (s : S) : result unit * Subscription * S :=
  let '(r, s1) := exec (ascii_bytes "PUNSUBSCRIBE") (map VStr pats) s in
  match r with
  | Err e => (Err e, sub, s1)
  | Ok _ => (Ok tt, mkSubscription sub.(channels) (fold_left obj_delete pats sub.(patterns)), s1)
  end.

(** The end of the [finally] block of [#_receive], once
    [connection.reconnect()] has resolved: subscribe again to the recorded
    channels, then to the recorded patterns, each only if there is one. *)
Definition resubscribe {S} (exec : SendFn S) (sub : Subscription) (s : S)
  : result unit * Subscription * S :=
  let '(r1, sub1, s1) :=
    if Nat.ltb 0 (length (object_keys sub.(channels)))
    then sub_subscribe exec (object_keys sub.(channels)) sub s
    else (Ok tt, sub, s) in
  match r1 with
  | Err e => (Err e, sub1, s1)
  | Ok _ =>
      if Nat.ltb 0 (length (object_keys sub1.(patterns)))
      then sub_psubscribe exec (object_keys sub1.(patterns)) sub1 s1
      else (Ok tt, sub1, s1)
  end.

(** ** Reply frames as a server writes them *)

(** One element of a reply: a simple string, an integer, a bulk string
    ([None] for [$-1]) or an array ([None] for [*-1]). *)
Inductive Elem :=
| ESimple (s : bytes)
| EInt (s : bytes)
| EBulk (b : option bytes)
| EArr (l : option (list Elem)).

(** Its RESP2 frame. *)
Fixpoint elem_frame (e : Elem) : bytes :=
  match e with
  | ESimple s => 43 :: s ++ CRLF
  | EInt s => 58 :: s ++ CRLF
  | EBulk None => ascii_bytes "$-1" ++ CRLF
  | EBulk (Some b) => bulk_frame b
  | EArr None => ascii_bytes "*-1" ++ CRLF
  | EArr (Some l) => 42 :: show_Z (Z.of_nat (length l)) ++ CRLF ++ flat_map elem_frame l
  end.

(** A frame the reader can take apart: lines without CR, array counts below
    [2^32] ([new Array(argCount)]). *)
Fixpoint elem_wf (e : Elem) : bool :=
  match e with
  | ESimple s | EInt s => forallb (fun c => negb (c =? 13)) s
  | EBulk _ | EArr None => true
  | EArr (Some l) => (Z.of_nat (length l) <? 4294967296) && forallb elem_wf l
  end.

(** What [readArrayReplyBody] stores for the element: [reply.string()],
    [reply.integer()], [reply.bulk()] or [reply.value()]. *)
Fixpoint elem_value (e : Elem) : Raw :=
  match e with
  | ESimple s => RStr (decode s)
  | EInt s => RNum (parseInt (decode s))
  | EBulk b => bulk_of b
  | EArr None => RNull
  | EArr (Some l) => RArr (map elem_value l)
  end.

(** Concrete servers and inputs. *)

Definition two_integer_frames : list bytes :=
  [ascii_bytes ":1" ++ CRLF ++ ascii_bytes ":2" ++ CRLF].

(** A connection whose server answers [+OK] to every command, except an
    [-ERR] to [GET]. *)
Definition ok_or_err_server : SendFn unit :=
  fun c _ s =>
    if list_eq_dec Z.eq_dec c (ascii_bytes "GET")
    then (Err (ErrorReplyError (ascii_bytes "-ERR")), s)
    else (Ok okReply, s).

Definition always_ok : SendFn unit := fun _ _ s => (Ok okReply, s).

Definition exec_all (p : PipelineState) (cs : list Command) : PipelineState :=
  fold_left (fun p '(c, a) => snd (pipeline_exec p c a)) cs p.

Definition refusing_server : nat -> DialOutcome :=
  fun _ => DialOk [Err (ErrorReplyError (ascii_bytes "-WRONGPASS invalid password"))].

(** * Properties *)

(** ** Decoding across calls *)

(** C3 (failing input): the reader delivers [":1\r\n:2\r\n"] as one chunk.
    The first [readReply] decodes [1] and keeps [":2\r\n"] in its own
    [StreamBuffer], which is dropped; the second [readReply] finds the reader
    exhausted and throws [EOFError] instead of decoding [2]. *)
Lemma readReply_drops_trailing_frame :
  fst (readReply two_integer_frames) = Ok (IntegerReply (ascii_bytes "1")) /\
  snd (readReply two_integer_frames) = [] /\
  fst (readReply (snd (readReply two_integer_frames))) = Err EOFError.
Proof. vm_compute. repeat split. Qed.

(** ** Request encoding *)

(** C4 (failing input): the command ["é"] (U+00E9) has [command.length = 1]
    but its UTF-8 encoding has 2 bytes.  The frame announces [$1], so a RESP2
    parser takes one byte and finds no CRLF after it: the frame does not
    parse, where the round trip requires [["é"]]. *)
Lemma writeRequest_non_ascii_command :
  writeRequest [233] [] =
    ascii_bytes "*1" ++ CRLF ++ ascii_bytes "$1" ++ CRLF ++ [195; 169] ++ CRLF /\
  ref_parse_array (writeRequest [233] []) = None.
Proof. vm_compute. split; reflexivity. Qed.

(** ** Submission on a closed connection *)

(** C9 (counterexample): the pipeline executor never reads the closed flag;
    on a closed connection its [exec] queues the command and resolves with
    the ["OK"] sentinel. *)
Lemma pipeline_exec_on_closed_connection :
  ~ (forall (p : PipelineState) command args,
       p.(p_closed) = true -> fst (pipeline_exec p command args) = Err ConnectionClosedError).
Proof.
  intro H.
  specialize (H (mkPipe [] false true) (ascii_bytes "GET") [VStr (ascii_bytes "k")] eq_refl).
  discriminate H.
Qed.

(** C9 (amended): on a closed connection, [MuxExecutor.exec] returns a
    rejected [ConnectionClosedError] at once: nothing is queued, no send
    starts and the drain state is untouched.  [PipelineExecutor.exec], on
    any connection, queues the command and resolves with [okReply]. *)
Theorem exec_on_closed_connection :
  forall (st : MuxState) (q : QueuedCommand) (p : PipelineState) command args,
    st.(isClosed) = true ->
    mux_exec st q =
      (Err ConnectionClosedError,
       mkMux st.(queue) st.(isProcessing) st.(phase) st.(isClosed) st.(maxRetryCount)
             (st.(log) ++ [RejectedClosed q.(qid)])) /\
    pipeline_exec p command args =
      (Ok okReply, mkPipe (p.(p_commands) ++ [(command, args)]) p.(p_tx) p.(p_closed)).
Proof.
  intros [qu pr ph cl mr lg] q p command args Hc. simpl in Hc. subst cl.
  split; reflexivity.
Qed.

Lemma exec_on_closed_connection_witness :
  let st := mkMux [] false Idle true 10 [] in
  let p := mkPipe [] false true in
  st.(isClosed) = true /\
  mux_exec st (mkQueued 1 (ascii_bytes "PING") []) =
    (Err ConnectionClosedError, mkMux [] false Idle true 10 [RejectedClosed 1]) /\
  pipeline_exec p (ascii_bytes "PING") [] =
    (Ok okReply, mkPipe [(ascii_bytes "PING", [])] false true).
Proof.
  simpl. split; [reflexivity|].
  exact (exec_on_closed_connection (mkMux [] false Idle true 10 []) (mkQueued 1 (ascii_bytes "PING") [])
           (mkPipe [] false true) (ascii_bytes "PING") [] eq_refl).
Defined.

(** ** Batched send *)

Section Batch.

Context {S : Type} (send : SendFn S).

Lemma transport_outcomes_length :
  forall commands s, length (transport_outcomes send commands s) = length commands.
Proof.
  induction commands as [|[c a] rest IH]; intro s; simpl; [reflexivity|].
  destruct (send c a s) as [r s1]. simpl. now rewrite IH.
Qed.

Lemma sendCommands_no_fault :
  forall commands s,
    Forall (fun r => no_fault r = true) (transport_outcomes send commands s) ->
    fst (sendCommands send commands s) = Ok (map as_raw_or_error (transport_outcomes send commands s)).
Proof.
  induction commands as [|[c a] rest IH]; intros s H; simpl in *; [reflexivity|].
  destruct (send c a s) as [r s1] eqn:E. inversion H as [|x y Hr Hrest]; subst.
  specialize (IH s1 Hrest).
  destruct r as [reply|e]; simpl in *.
  - destruct (sendCommands send rest s1) as [rs s2]. simpl in IH. subst rs. reflexivity.
  - destruct e; try discriminate Hr.
    destruct (sendCommands send rest s1) as [rs s2]. simpl in IH. subst rs. reflexivity.
Qed.

Lemma sendCommands_first_fault :
  forall commands s pre e post,
    transport_outcomes send commands s = pre ++ Err e :: post ->
    Forall (fun r => no_fault r = true) pre ->
    is_error_reply e = false ->
    fst (sendCommands send commands s) = Err e.
Proof.
  induction commands as [|[c a] rest IH]; intros s pre e post Ho Hpre He; simpl in *.
  - destruct pre; discriminate Ho.
  - destruct (send c a s) as [r s1] eqn:E.
    destruct pre as [|r0 pre'].
    + simpl in Ho. injection Ho as -> _.
      destruct e; try reflexivity. discriminate He.
    + simpl in Ho. injection Ho as -> Ho. inversion Hpre as [|x y Hr Hpre']; subst.
      specialize (IH s1 pre' e post Ho Hpre' He).
      destruct r0 as [reply|e0]; simpl in *.
      * destruct (sendCommands send rest s1) as [rs s2]. simpl in IH. now subst rs.
      * destruct e0; try discriminate Hr.
        destruct (sendCommands send rest s1) as [rs s2]. simpl in IH. now subst rs.
Qed.

Lemma recording_eq :
  forall c a sent s r s1, send c a s = (r, s1) ->
    recording send c a (sent, s) = (r, (sent ++ [(c, a)], s1)).
Proof. intros c a sent s r s1 E. unfold recording. now rewrite E. Qed.

Lemma sendCommands_recording :
  forall commands sent s,
    Forall (fun r => no_fault r = true) (transport_outcomes send commands s) ->
    exists s', snd (sendCommands (recording send) commands (sent, s)) = (sent ++ commands, s').
Proof.
  induction commands as [|[c a] rest IH]; intros sent s H.
  - exists s. simpl. now rewrite app_nil_r.
  - cbn [transport_outcomes] in H. destruct (send c a s) as [r s1] eqn:E.
    inversion H as [|x y Hr Hrest]; subst.
    destruct (IH (sent ++ [(c, a)]) s1 Hrest) as [s' Hs'].
    exists s'. rewrite <- app_assoc in Hs'. simpl in Hs'.
    cbn [sendCommands]. rewrite (recording_eq c a sent s r s1 E).
    destruct r as [reply|e]; simpl in Hr.
    + destruct (sendCommands (recording send) rest (sent ++ [(c, a)], s1)) as [rs s2].
      exact Hs'.
    + destruct e; try discriminate Hr.
      destruct (sendCommands (recording send) rest (sent ++ [(c, a)], s1)) as [rs s2].
      exact Hs'.
Qed.

End Batch.

(** C6: [sendCommands] on an ordered batch.  Writing [outs] for what the
    connection yields for each command in turn: there is one outcome per
    command; if none of them is a transport-level failure, the result is
    the list of the same length whose i-th element is the i-th reply's
    value, or the [ErrorReplyError] of an error reply at position i; at the
    first outcome that is any other exception, the batch aborts with it. *)
Theorem sendCommands_positional :
  forall {S : Type} (send : SendFn S) (commands : list Command) (s : S),
    let outs := transport_outcomes send commands s in
    length outs = length commands /\
    (Forall (fun r => no_fault r = true) outs ->
       exists res, fst (sendCommands send commands s) = Ok res /\
         length res = length commands /\
         forall i, nth_error res i = option_map as_raw_or_error (nth_error outs i)) /\
    (forall pre e post,
       outs = pre ++ Err e :: post ->
       Forall (fun r => no_fault r = true) pre ->
       is_error_reply e = false ->
       fst (sendCommands send commands s) = Err e).
Proof.
  intros S send commands s outs. split; [|split].
  - apply transport_outcomes_length.
  - intro H. exists (map as_raw_or_error outs). split; [|split].
    + now apply sendCommands_no_fault.
    + rewrite length_map. apply transport_outcomes_length.
    + intro i. apply nth_error_map.
  - intros pre e post Ho Hpre He. eapply sendCommands_first_fault; eauto.
Qed.

Lemma sendCommands_positional_witness :
  let cmds := [(ascii_bytes "SET", [VStr [97]; VStr [49]]); (ascii_bytes "GET", [VStr [97]]);
               (ascii_bytes "SET", [VStr [98]; VStr [50]])] in
  Forall (fun r => no_fault r = true) (transport_outcomes ok_or_err_server cmds tt) /\
  (exists res, fst (sendCommands ok_or_err_server cmds tt) = Ok res /\
     length res = length cmds /\
     forall i, nth_error res i =
       option_map as_raw_or_error (nth_error (transport_outcomes ok_or_err_server cmds tt) i)).
Proof.
  intro cmds. split.
  - vm_compute. repeat constructor.
  - destruct (sendCommands_positional ok_or_err_server cmds tt) as [_ [H _]].
    apply H. vm_compute. repeat constructor.
Defined.

(** ** Pipeline flush *)

Lemma exec_all_commands :
  forall cs p, (exec_all p cs).(p_commands) = p.(p_commands) ++ cs.
Proof.
  unfold exec_all. induction cs as [|[c a] cs IH]; intro p; simpl.
  - now rewrite app_nil_r.
  - rewrite IH. simpl. now rewrite <- app_assoc.
Qed.

(** C7 (counterexample): in transactional mode the [MULTI]/[EXEC] framing is
    added before the emptiness test, so flushing an empty transactional
    pipeline sends [MULTI] and [EXEC] and returns their two replies, not an
    empty list. *)
Lemma flush_empty_transaction :
  ~ (forall (S : Type) (send : SendFn S) (p : PipelineState) (s : S),
       p.(p_commands) = [] -> fst (snd (pipeline_flush send p s)) = Ok []).
Proof.
  intro H. specialize (H unit always_ok (mkPipe [] true false) tt eq_refl).
  vm_compute in H. discriminate H.
Qed.

(** C7 (amended): [flush] takes the queued commands and clears the queue
    before sending, whatever the send then does, so that commands queued
    afterwards are all a later flush sees; the batch handed to the
    connection is the snapshot, framed by [MULTI] and [EXEC] in transactional
    mode; in non-transactional mode an empty snapshot returns [[]] without
    sending anything; in transactional mode the framing comes before the
    emptiness test, so an empty snapshot still sends [MULTI] and [EXEC] and
    returns their two replies. *)
Theorem pipeline_flush_snapshot :
  forall {S : Type} (send : SendFn S) (p : PipelineState) (s : S) (sent : list Command),
    (fst (pipeline_flush send p s)).(p_commands) = [] /\
    (forall cs, (exec_all (fst (pipeline_flush send p s)) cs).(p_commands) = cs) /\
    (Forall (fun r => no_fault r = true) (transport_outcomes send (flush_batch p) s) ->
       exists s', snd (snd (pipeline_flush (recording send) p (sent, s))) =
         (sent ++ (if p.(p_tx) then (MULTI, []) :: p.(p_commands) ++ [(EXEC, [])]
                   else p.(p_commands)), s')) /\
    (p.(p_tx) = false -> p.(p_commands) = [] ->
       pipeline_flush send p s = (mkPipe [] false p.(p_closed), (Ok [], s))) /\
    (p.(p_tx) = true -> p.(p_commands) = [] ->
       forall r1 r2 s1 s2,
         no_fault r1 = true -> no_fault r2 = true ->
         send MULTI [] s = (r1, s1) -> send EXEC [] s1 = (r2, s2) ->
         pipeline_flush send p s =
           (mkPipe [] true p.(p_closed), (Ok [as_raw_or_error r1; as_raw_or_error r2], s2))).
Proof.
  intros S send p s sent. split; [|split; [|split; [|split]]].
  - unfold pipeline_flush. destruct (flush_batch p); reflexivity.
  - intro cs. rewrite exec_all_commands.
    unfold pipeline_flush. destruct (flush_batch p); reflexivity.
  - intro H. unfold pipeline_flush.
    destruct (sendCommands_recording send (flush_batch p) sent s H) as [s' Hs'].
    exists s'. unfold flush_batch in *.
    destruct (p_tx p).
    + exact Hs'.
    + destruct (p_commands p) eqn:E.
      * simpl in *. exact Hs'.
      * exact Hs'.
  - intros Ht Hc. unfold pipeline_flush, flush_batch. rewrite Ht, Hc.
    destruct p as [cmds tx cl]; simpl in *; subst; reflexivity.
  - intros Ht Hc r1 r2 s1 s2 F1 F2 E1 E2.
    unfold pipeline_flush, flush_batch. rewrite Ht, Hc.
    destruct p as [cmds tx cl]; simpl in Ht, Hc |- *; subst.
    rewrite E1.
    destruct r1 as [a|[]]; try discriminate F1; cbn [sendCommands]; rewrite E2;
      (destruct r2 as [b|[]]; try discriminate F2; reflexivity).
Qed.

Lemma pipeline_flush_snapshot_witness :
  let p := mkPipe [(ascii_bytes "INCR", [VStr [99]])] true false in
  Forall (fun r => no_fault r = true) (transport_outcomes always_ok (flush_batch p) tt) /\
  (exists s', snd (snd (pipeline_flush (recording always_ok) p ([], tt))) =
    ([] ++ (MULTI, []) :: [(ascii_bytes "INCR", [VStr [99]])] ++ [(EXEC, [])], s')) /\
  pipeline_flush always_ok (mkPipe [] true false) tt =
    (mkPipe [] true false,
     (Ok [as_raw_or_error (Ok okReply); as_raw_or_error (Ok okReply)], tt)).
Proof.
  intro p. split; [|split].
  - vm_compute. repeat constructor.
  - destruct (pipeline_flush_snapshot always_ok p tt []) as [_ [_ [H _]]].
    apply H. vm_compute. repeat constructor.
  - destruct (pipeline_flush_snapshot always_ok (mkPipe [] true false) tt [])
      as [_ [_ [_ [_ H]]]].
    exact (H eq_refl eq_refl (Ok okReply) (Ok okReply) tt tt
             eq_refl eq_refl eq_refl eq_refl).
Defined.

(** ** Authentication during connection establishment *)

(** C8: whichever attempt of [connect()] gets its [AUTH] refused with an
    error reply, that attempt ends the establishment with one
    [AuthenticationError]: one dial, the [AUTH], the socket closed, no
    backoff delay and no further dial, the retry counter reset to 0, for
    every [maxRetryCount] and every previous value of the counter. *)
Theorem connect_auth_refused_is_terminal :
  forall (fuel attempt : nat) (o : ConnOptions) (st : ConnState) (dial : nat -> DialOutcome)
         (pw m : jsstring) (rs : list (result RedisReply)),
    o.(password) = Some pw ->
    dial attempt = DialOk (Err (ErrorReplyError m) :: rs) ->
    exists args,
      connect_loop (S fuel) attempt o st dial =
        (Err AuthenticationError, mkConn true false 0 st.(c_maxRetryCount),
         [Dial; Sent (ascii_bytes "AUTH") args; CloseSocket]).
Proof.
  intros fuel attempt o st dial pw m rs Hpw Hd.
  cbn [connect_loop]. rewrite Hd. unfold handshake. rewrite Hpw. unfold authenticate.
  destruct (truthy (Some pw) && truthy (username o)); cbn; eexists; reflexivity.
Qed.

Lemma connect_auth_refused_is_terminal_witness :
  let o := mkOptions (Some (ascii_bytes "secret")) None 0 None in
  let st := mkConn false false 0 10 in
  o.(password) = Some (ascii_bytes "secret") /\
  refusing_server 0 = DialOk [Err (ErrorReplyError (ascii_bytes "-WRONGPASS invalid password"))] /\
  exists args,
    connect o st refusing_server =
      (Err AuthenticationError, mkConn true false 0 10,
       [Dial; Sent (ascii_bytes "AUTH") args; CloseSocket]).
Proof.
  intros o st. split; [reflexivity|split; [reflexivity|]].
  exact (connect_auth_refused_is_terminal _ 0 o st refusing_server (ascii_bytes "secret")
           (ascii_bytes "-WRONGPASS invalid password") [] eq_refl eq_refl).
Defined.

(** ** The subscription iterator *)

Lemma raw_is_true :
  forall s v, raw_is s (Some v) = true <-> v = RStr (ascii_bytes s).
Proof.
  intros s v. unfold raw_is. destruct v as [x| | |]; split; intro H; try discriminate H.
  - destruct (list_eq_dec Z.eq_dec x (ascii_bytes s)); [now subst|discriminate H].
  - injection H as ->. destruct (list_eq_dec Z.eq_dec (ascii_bytes s) (ascii_bytes s)); tauto.
Qed.

Lemma message_data_id : forall binary v, message_data binary v = v.
Proof. intros [] v; reflexivity. Qed.

(** C10 (counterexample): an error-reply frame makes the iterator throw the
    [ErrorReplyError], and a non-array frame such as [+OK] makes it
    reconnect and resubscribe; neither is silently dropped. *)
Lemma receive_non_message_frames :
  receive_step false (fst (readReply [ascii_bytes "-ERR unknown command" ++ CRLF])) =
    Raise (ErrorReplyError (ascii_bytes "-ERR unknown command")) /\
  receive_step false (fst (readReply [ascii_bytes "+OK" ++ CRLF])) = Reconnect.
Proof. vm_compute. split; reflexivity. Qed.

(** C10 (amended): one turn of the iterator on the outcome [r] of
    [readReply].  It yields exactly for a [message] array of 3 elements
    (channel, payload) and a [pmessage] array of 4 (pattern, channel,
    payload); any other non-null array, such as a subscribe acknowledgment,
    is dropped without yielding or error; a frame that is not an array
    forces a reconnect and resubscription; an error reply is raised to the
    consumer, as is any read error but [InvalidStateError] (reconnect) and
    [BadResource], which closes the connection and ends the iteration. *)
Theorem receive_step_cases :
  forall (binary : bool) (r : result RedisReply),
    (forall m, receive_step binary r = Yield m <->
       exists c d,
         (r = Ok (ArrayReply (Some [RStr (ascii_bytes "message"); c; d])) /\ m = mkMsg None c d) \/
         (exists pt, r = Ok (ArrayReply (Some [RStr (ascii_bytes "pmessage"); pt; c; d])) /\
                     m = mkMsg (Some pt) c d)) /\
    (forall rep, r = Ok (ArrayReply (Some rep)) ->
       (forall m, receive_step binary r <> Yield m) -> receive_step binary r = Skip) /\
    (forall reply, r = Ok reply -> (forall b, reply <> ArrayReply b) ->
       receive_step binary r = Reconnect) /\
    (forall e, r = Err e -> e <> InvalidStateError -> e <> Transport BadResource ->
       receive_step binary r = Raise e) /\
    (r = Err (Transport BadResource) -> receive_step binary r = Stop).
Proof.
  intros binary r. split; [|split; [|split; [|split]]].
  - intro m. split.
    + intro H. destruct r as [reply|e].
      2:{ destruct e as [| | | | | | | | |k|]; try discriminate H. destruct k; discriminate H. }
      destruct reply as [b|b|b|[rep|]]; try discriminate H.
      cbn [receive_step reply_array] in H.
      destruct (raw_is "message" (nth_error rep 0) && Nat.eqb (length rep) 3) eqn:E1.
      * apply andb_true_iff in E1 as [E1 E2]. apply Nat.eqb_eq in E2.
        destruct rep as [|x [|y [|z [|w rest]]]]; try discriminate E2.
        apply raw_is_true in E1. subst x. injection H as <-.
        exists y, z. left. split; [reflexivity|]. now rewrite message_data_id.
      * destruct (raw_is "pmessage" (nth_error rep 0) && Nat.eqb (length rep) 4) eqn:E3;
          [|discriminate H].
        apply andb_true_iff in E3 as [E3 E4]. apply Nat.eqb_eq in E4.
        destruct rep as [|x [|y [|z [|w [|v rest]]]]]; try discriminate E4.
        apply raw_is_true in E3. subst x. injection H as <-.
        exists z, w. right. exists y. split; [reflexivity|]. now rewrite message_data_id.
    + intros [c [d [[-> ->]|[pt [-> ->]]]]]; destruct binary; vm_compute; reflexivity.
  - intros rep -> Hn.
    destruct (receive_step binary (Ok (ArrayReply (Some rep)))) eqn:E;
      [exfalso; exact (Hn _ eq_refl)|reflexivity| | |];
      cbn [receive_step reply_array] in E;
      (destruct (raw_is "message" _ && _); [discriminate E|]);
      (destruct (raw_is "pmessage" _ && _); discriminate E).
  - intros reply -> Hn. destruct reply as [b|b|b|b]; try reflexivity.
    exfalso. exact (Hn b eq_refl).
  - intros e -> H1 H2. destruct e as [| | | | | | | | |k|]; try reflexivity.
    + exfalso. now apply H1.
    + destruct k; try reflexivity. exfalso. now apply H2.
  - intros ->. reflexivity.
Qed.

Lemma receive_step_cases_witness :
  let r := fst (readReply [ascii_bytes "*3" ++ CRLF ++ ascii_bytes "$7" ++ CRLF ++
                           ascii_bytes "message" ++ CRLF ++ ascii_bytes "$4" ++ CRLF ++
                           ascii_bytes "news" ++ CRLF ++ ascii_bytes "$5" ++ CRLF ++
                           ascii_bytes "hello" ++ CRLF]) in
  receive_step false r = Yield (mkMsg None (RStr (ascii_bytes "news")) (RStr (ascii_bytes "hello"))) /\
  exists c d,
    (r = Ok (ArrayReply (Some [RStr (ascii_bytes "message"); c; d])) /\
     mkMsg None (RStr (ascii_bytes "news")) (RStr (ascii_bytes "hello")) = mkMsg None c d) \/
    (exists pt, r = Ok (ArrayReply (Some [RStr (ascii_bytes "pmessage"); pt; c; d])) /\
                mkMsg None (RStr (ascii_bytes "news")) (RStr (ascii_bytes "hello")) = mkMsg (Some pt) c d).
Proof.
  intro r.
  assert (H : receive_step false r =
                Yield (mkMsg None (RStr (ascii_bytes "news")) (RStr (ascii_bytes "hello"))))
    by (vm_compute; reflexivity).
  split; [exact H|].
  destruct (receive_step_cases false r) as [Hy _].
  exact (proj1 (Hy _) H).
Defined.

(** ** The multiplexing executor *)

Lemma enqueued_app : forall l l', enqueued (l ++ l') = enqueued l ++ enqueued l'.
Proof. intros; unfold enqueued; apply flat_map_app. Qed.

Lemma completed_app : forall l l', completed (l ++ l') = completed l ++ completed l'.
Proof. intros; unfold completed; apply flat_map_app. Qed.

Lemma in_flight_app :
  forall l l', in_flight (l ++ l') = fold_left serial_step l' (in_flight l).
Proof. intros; unfold in_flight; apply fold_left_app. Qed.

Lemma reply_fold_quiet :
  forall l acc,
    forallb (fun e => match e with Resolved _ _ => false | _ => true end) l = true ->
    fst (fold_left reply_step l acc) = fst acc.
Proof.
  induction l as [|e l IH]; intros [ok prev] H; simpl in *; [reflexivity|].
  apply andb_prop in H as [He Hl].
  rewrite IH by exact Hl.
  destruct e; try discriminate He; reflexivity.
Qed.

Lemma replies_follow_sends_quiet :
  forall l l',
    forallb (fun e => match e with Resolved _ _ => false | _ => true end) l' = true ->
    replies_follow_sends (l ++ l') = replies_follow_sends l.
Proof.
  intros l l' H. unfold replies_follow_sends.
  rewrite fold_left_app. apply reply_fold_quiet, H.
Qed.

Lemma replies_follow_sends_resolved :
  forall l i r,
    replies_follow_sends (l ++ [SendEnd i; Resolved i r]) = replies_follow_sends l.
Proof.
  intros l i r. unfold replies_follow_sends.
  rewrite fold_left_app.
  destruct (fold_left reply_step l (true, None)) as [ok prev].
  simpl. rewrite Nat.eqb_refl, andb_true_r. reflexivity.
Qed.

(** The rewriting that turns the observations of an extended log into
    those of the log before it. *)
Ltac log_simpl :=
  repeat first
    [ rewrite enqueued_app | rewrite completed_app | rewrite in_flight_app
    | rewrite replies_follow_sends_resolved
    | rewrite replies_follow_sends_quiet by reflexivity
    | rewrite app_nil_r ];
  cbn [enqueued completed flat_map app fold_left serial_step].

Lemma mux_inv_init : forall c m, mux_inv (mux_init c m).
Proof.
  intros c m. unfold mux_inv, mux_init; simpl.
  repeat split; reflexivity.
Qed.

(** A drain that has just settled its head runs [finally] into a state that
    satisfies the invariant. *)
Lemma finally_inv :
  forall st,
    enqueued st.(log) = completed st.(log) ++ map qid st.(queue) ->
    in_flight st.(log) = Some None ->
    replies_follow_sends st.(log) = true ->
    mux_inv (mux_finally st).
Proof.
  intros [qu pr ph cl mr lg] He Hf Hr; simpl in *.
  unfold mux_finally; simpl.
  destruct qu as [|item rest]; unfold mux_inv; simpl.
  - repeat split; auto.
  - log_simpl. rewrite Hf. simpl. rewrite He.
    repeat split; auto; try discriminate; rewrite ?app_nil_r; reflexivity.
Qed.

Lemma mux_inv_exec : forall st q, mux_inv st -> mux_inv (snd (mux_exec st q)).
Proof.
  intros [qu pr ph cl mr lg] q [He [Hi [Hp [Hf Hr]]]]; simpl in *.
  unfold mux_exec; simpl.
  destruct cl; simpl.
  - unfold with_log, mux_inv; simpl. log_simpl.
    rewrite He, Hf, Hr.
    repeat split; try apply Hi; auto; rewrite ?app_nil_r; try reflexivity.
    destruct ph; try destruct qu; reflexivity.
  - destruct pr; simpl.
    + (* a drain is running: the command waits in the queue *)
      destruct ph; simpl in Hp; try discriminate Hp;
        (assert (Hq : qu <> []) by (intro E; apply Hi in E; discriminate E));
        destruct qu as [|item rest]; try (exfalso; apply Hq; reflexivity);
        unfold mux_inv; simpl; log_simpl; rewrite He, Hf, Hr;
        repeat split; auto; try discriminate; rewrite ?app_nil_r; try reflexivity;
        rewrite <- ?app_assoc; simpl; rewrite ?map_app; reflexivity.
    + (* idle: [exec] starts the drain *)
      destruct ph; simpl in Hp; try discriminate Hp.
      assert (qu = []) as -> by (apply Hi; reflexivity).
      unfold dequeue, mux_inv; simpl. log_simpl.
      rewrite He, Hf, Hr. simpl.
      repeat split; auto; try discriminate; rewrite ?app_nil_r; reflexivity.
Qed.

Lemma mux_inv_send : forall st r, mux_inv st -> mux_inv (mux_send_done st r).
Proof.
  intros [qu pr ph cl mr lg] r Hinv.
  unfold mux_send_done; simpl.
  destruct ph; try exact Hinv.
  destruct qu as [|item rest]; [exact Hinv|].
  destruct Hinv as [He [Hi [Hp [Hf Hr]]]]; simpl in *.
  destruct r as [reply|e].
  - apply finally_inv; simpl; log_simpl; rewrite ?He, ?Hf, ?Hr; simpl;
      rewrite ?Nat.eqb_refl; rewrite ?app_nil_r, <- ?app_assoc; reflexivity.
  - destruct ((0 <? mr) && isRetriableError e cl).
    + unfold mux_inv; simpl. log_simpl. rewrite He, Hf, Hr. simpl.
      rewrite Nat.eqb_refl.
      repeat split; auto; try discriminate; rewrite ?app_nil_r; reflexivity.
    + apply finally_inv; simpl; log_simpl; rewrite ?He, ?Hf, ?Hr; simpl;
        rewrite ?Nat.eqb_refl; rewrite ?app_nil_r, <- ?app_assoc; reflexivity.
Qed.

Lemma mux_inv_reconnect : forall st r, mux_inv st -> mux_inv (mux_reconnect_done st r).
Proof.
  intros [qu pr ph cl mr lg] r Hinv.
  unfold mux_reconnect_done; simpl.
  destruct ph; try exact Hinv.
  destruct qu as [|item rest]; [exact Hinv|].
  destruct Hinv as [He [Hi [Hp [Hf Hr]]]]; simpl in *.
  destruct r as [u|e].
  - apply finally_inv; assumption.
  - apply finally_inv; simpl; log_simpl; rewrite ?He, ?Hf, ?Hr; simpl;
      rewrite ?app_nil_r, <- ?app_assoc; reflexivity.
Qed.

Lemma mux_inv_closed : forall st b, mux_inv st -> mux_inv (set_closed b st).
Proof. intros [qu pr ph cl mr lg] b Hinv; exact Hinv. Qed.

Lemma mux_inv_reachable : forall st, mux_reachable st -> mux_inv st.
Proof.
  induction 1 as [c m|st st' _ IH Hs].
  - apply mux_inv_init.
  - destruct Hs.
    + apply mux_inv_exec, IH.
    + apply mux_inv_send, IH.
    + apply mux_inv_reconnect, IH.
    + apply mux_inv_closed, IH.
    + apply mux_inv_closed, IH.
Qed.

(** C1: in every state the executor can reach from any interleaving of
    submissions, settlements, reconnects and closes, the callers settled so
    far are exactly the submitted ones in submission order, followed by the
    ones still queued; no send starts while another is in flight and every
    send ends before the next starts; and every reply handed to a caller is
    the one read right after that caller's own send. *)
Theorem mux_order_serial :
  forall st, mux_reachable st ->
    enqueued st.(log) = completed st.(log) ++ map qid st.(queue) /\
    in_flight st.(log) <> None /\
    replies_follow_sends st.(log) = true.
Proof.
  intros st Hst.
  destruct (mux_inv_reachable st Hst) as [He [_ [_ [Hf Hr]]]].
  split; [exact He|]. split; [rewrite Hf; discriminate | exact Hr].
Qed.

Lemma mux_order_serial_witness :
  let q1 := mkQueued 1 (ascii_bytes "SET") [VStr [97]; VStr [49]] in
  let q2 := mkQueued 2 (ascii_bytes "GET") [VStr [97]] in
  let st := mux_send_done (snd (mux_exec (snd (mux_exec (mux_init false 3) q1)) q2))
                          (Ok okReply) in
  mux_reachable st /\
  (enqueued st.(log) = completed st.(log) ++ map qid st.(queue) /\
   in_flight st.(log) <> None /\
   replies_follow_sends st.(log) = true).
Proof.
  intros q1 q2 st.
  assert (H : mux_reachable st).
  { unfold st. eapply reach_step; [| apply step_send; reflexivity].
    eapply reach_step; [| apply step_exec].
    eapply reach_step; [| apply step_exec].
    apply reach_init. }
  split; [exact H | apply (mux_order_serial st H)].
Defined.

(** ** Retrying the head of the queue *)

Lemma outcomes_app : forall l l', outcomes (l ++ l') = outcomes l ++ outcomes l'.
Proof. intros; unfold outcomes; apply flat_map_app. Qed.

Lemma finally_keeps :
  forall st, (mux_finally st).(queue) = st.(queue) /\
             outcomes (mux_finally st).(log) = outcomes st.(log).
Proof.
  intros [qu pr ph cl mr lg]. unfold mux_finally; simpl.
  destruct qu; simpl; [split; reflexivity|].
  rewrite outcomes_app, app_nil_r. split; reflexivity.
Qed.

Lemma retry_round_sending :
  forall item rest pr cl mr lg e,
    (0 <? mr) && isRetriableError e cl = true ->
    retry_round e (mkMux (item :: rest) pr Sending cl mr lg) =
    mkMux (item :: rest) true Sending cl mr
          (lg ++ [SendEnd item.(qid); SendStart item.(qid)]).
Proof.
  intros item rest pr cl mr lg e H.
  unfold retry_round, mux_send_done; simpl. rewrite H.
  unfold mux_reconnect_done, mux_finally, dequeue; simpl.
  rewrite <- app_assoc. reflexivity.
Qed.

Lemma retry_rounds :
  forall n item rest pr cl mr lg e,
    (0 <? mr) && isRetriableError e cl = true ->
    exists pr' l,
      Nat.iter n (retry_round e) (mkMux (item :: rest) pr Sending cl mr lg) =
      mkMux (item :: rest) pr' Sending cl mr (lg ++ l) /\ outcomes l = [].
Proof.
  induction n as [|n IH]; intros item rest pr cl mr lg e H.
  - exists pr, []. rewrite app_nil_r. split; reflexivity.
  - destruct (IH item rest pr cl mr lg e H) as [pr' [l [Hn Hl]]].
    exists true, (l ++ [SendEnd item.(qid); SendStart item.(qid)]).
    simpl. rewrite Hn, retry_round_sending by exact H.
    rewrite app_assoc, outcomes_app, Hl. split; reflexivity.
Qed.

(** C2: let the drain be sending the head [item] of the queue.
    - If the send fails with a retriable error and the retry budget is
      positive, the head is not popped: the executor waits for [reconnect];
      once it succeeds, the same queued command (same command and arguments)
      is sent again, and no caller is settled meanwhile.
    - If that [reconnect] fails with [e'], the caller of [item] is rejected
      with [e'] and the head is popped.
    - If the error is not retriable or the budget is not positive, the caller
      is rejected with that error and the head is popped.
    - However many retriable failures precede it, a send that finally
      succeeds settles the caller of [item] with its reply, and only it. *)
Theorem mux_retry_resends_head :
  forall st item rest e,
    st.(phase) = Sending -> st.(queue) = item :: rest ->
    ((0 <? st.(maxRetryCount)) && isRetriableError e st.(isClosed) = true ->
       let st1 := mux_send_done st (Err e) in
       st1.(queue) = item :: rest /\ st1.(phase) = Reconnecting /\
       outcomes st1.(log) = outcomes st.(log) /\
       (let st2 := mux_reconnect_done st1 (Ok tt) in
        st2.(queue) = item :: rest /\ st2.(phase) = Sending /\
        st2.(log) = st1.(log) ++ [SendStart item.(qid)]) /\
       (forall e', let st2 := mux_reconnect_done st1 (Err e') in
        st2.(queue) = rest /\
        outcomes st2.(log) = outcomes st.(log) ++ [(item.(qid), Err e')])) /\
    ((0 <? st.(maxRetryCount)) && isRetriableError e st.(isClosed) = false ->
       let st1 := mux_send_done st (Err e) in
       st1.(queue) = rest /\
       outcomes st1.(log) = outcomes st.(log) ++ [(item.(qid), Err e)]) /\
    ((0 <? st.(maxRetryCount)) && isRetriableError e st.(isClosed) = true ->
       forall n reply,
       let st' := mux_send_done (Nat.iter n (retry_round e) st) (Ok reply) in
       st'.(queue) = rest /\
       outcomes st'.(log) = outcomes st.(log) ++ [(item.(qid), Ok reply)]).
Proof.
  intros [qu pr ph cl mr lg] item rest e Hp Hq; simpl in Hp, Hq; subst ph qu.
  simpl. split; [|split].
  - intro H. unfold mux_send_done; simpl. rewrite H; simpl.
    rewrite outcomes_app, app_nil_r.
    split; [reflexivity|]. split; [reflexivity|]. split; [reflexivity|].
    split.
    + unfold mux_reconnect_done, mux_finally, dequeue; simpl.
      split; [reflexivity|]. split; reflexivity.
    + intro e'. unfold mux_reconnect_done; simpl.
      destruct (finally_keeps (mkMux rest true Reconnecting cl mr
                  ((lg ++ [SendEnd item.(qid)]) ++ [Rejected item.(qid) e'])))
        as [Hq' Ho]. simpl in Hq', Ho.
      rewrite Hq', Ho, !outcomes_app. simpl. rewrite app_nil_r.
      split; reflexivity.
  - intro H. unfold mux_send_done; simpl. rewrite H.
    destruct (finally_keeps (mkMux rest true Sending cl mr
                (lg ++ [SendEnd item.(qid); Rejected item.(qid) e])))
      as [Hq' Ho]. simpl in Hq', Ho.
    rewrite Hq', Ho, outcomes_app. split; reflexivity.
  - intros H n reply.
    destruct (retry_rounds n item rest pr cl mr lg e H) as [pr' [l [Hn Hl]]].
    rewrite Hn. unfold mux_send_done; simpl.
    destruct (finally_keeps (mkMux rest true Sending cl mr
                ((lg ++ l) ++ [SendEnd item.(qid); Resolved item.(qid) reply])))
      as [Hq' Ho]. simpl in Hq', Ho.
    rewrite Hq', Ho, !outcomes_app, Hl. simpl. rewrite app_nil_r.
    split; reflexivity.
Qed.

Lemma mux_retry_resends_head_witness :
  let item := mkQueued 1 (ascii_bytes "GET") [VStr [97]] in
  let st := mkMux [item] true Sending false 10 [Submitted 1; SendStart 1] in
  let e := Transport ConnectionReset in
  (st.(phase) = Sending /\ st.(queue) = [item] /\
   (0 <? st.(maxRetryCount)) && isRetriableError e st.(isClosed) = true) /\
  (let st' := mux_send_done (Nat.iter 2 (retry_round e) st) (Ok okReply) in
   st'.(queue) = [] /\ outcomes st'.(log) = outcomes st.(log) ++ [(1%nat, Ok okReply)]).
Proof.
  intros item st e.
  assert (Hp : st.(phase) = Sending) by reflexivity.
  assert (Hq : st.(queue) = item :: []) by reflexivity.
  assert (Hc : (0 <? st.(maxRetryCount)) && isRetriableError e st.(isClosed) = true)
    by reflexivity.
  split; [split; [exact Hp | split; [exact Hq | exact Hc]]|].
  destruct (mux_retry_resends_head st item [] e Hp Hq) as [_ [_ H]].
  exact (H Hc 2%nat okReply).
Defined.

(** ** The buffered reader over any chunking of the stream *)

Lemma find_crlf_cons :
  forall a b' r, find_crlf (a :: b' :: r) =
    if (a =? 13) && (b' =? 10) then Some 0%nat else option_map S (find_crlf (b' :: r)).
Proof. reflexivity. Qed.

Lemma find_crlf_bound :
  forall b i, find_crlf b = Some i -> (i + 2 <= length b)%nat.
Proof.
  induction b as [|a r IH]; intros i H; [discriminate H|].
  destruct r as [|b' r']; [discriminate H|].
  rewrite find_crlf_cons in H. destruct ((a =? 13) && (b' =? 10)).
  - injection H as <-. simpl. lia.
  - destruct (find_crlf (b' :: r')) as [j|] eqn:E; [|discriminate H].
    injection H as <-. specialize (IH j eq_refl). simpl in *. lia.
Qed.

Lemma find_crlf_extend :
  forall b t i, find_crlf b = Some i -> find_crlf (b ++ t) = Some i.
Proof.
  induction b as [|a r IH]; intros t i H; [discriminate H|].
  destruct r as [|b' r']; [discriminate H|].
  rewrite find_crlf_cons in H. rewrite <- !app_comm_cons, find_crlf_cons.
  destruct ((a =? 13) && (b' =? 10)); [exact H|].
  destruct (find_crlf (b' :: r')) as [j|] eqn:E; [|discriminate H].
  injection H as <-. specialize (IH t j eq_refl). rewrite <- app_comm_cons in IH. rewrite IH. reflexivity.
Qed.

Lemma find_crlf_line :
  forall l r, find_crlf l = None -> find_crlf (l ++ 13 :: 10 :: r) = Some (length l).
Proof.
  induction l as [|a l IH]; intros r H; [reflexivity|].
  destruct l as [|b' l'].
  - simpl. rewrite andb_false_r. reflexivity.
  - rewrite find_crlf_cons in H. rewrite <- !app_comm_cons, find_crlf_cons.
    destruct ((a =? 13) && (b' =? 10)); [discriminate H|].
    destruct (find_crlf (b' :: l')) as [j|] eqn:E; [discriminate H|].
    specialize (IH r eq_refl). rewrite <- app_comm_cons in IH. rewrite IH. reflexivity.
Qed.

Lemma prefix_split :
  forall (x b t y : bytes), b ++ t = x ++ y -> (length x <= length b)%nat ->
    firstn (length x) b = x /\ skipn (length x) b ++ t = y.
Proof.
  induction x as [|a x IH]; intros b t y H Hl; [split; [reflexivity | exact H]|].
  destruct b as [|c b]; simpl in Hl; [lia|].
  simpl in H. injection H as -> H.
  destruct (IH b t y H ltac:(lia)) as [H1 H2].
  simpl. rewrite H1. split; [reflexivity | exact H2].
Qed.

(** [readLine] returns the bytes up to the first CRLF of what the buffer
    holds and the stream will deliver, however that is chunked, and keeps
    everything after the CRLF. *)
Lemma readLine_loop_line :
  forall s b l r,
    b ++ concat s = l ++ 13 :: 10 :: r -> find_crlf l = None ->
    exists sb', readLine_loop b s = (Ok (Some l), sb') /\ content sb' = r.
Proof.
  induction s as [|c s IH]; intros b l r Hc Hl; simpl in Hc.
  - rewrite app_nil_r in Hc. subst b. simpl.
    rewrite (find_crlf_line l r Hl).
    destruct (prefix_split l (l ++ 13 :: 10 :: r) [] (13 :: 10 :: r))
      as [H1 _]; [rewrite app_nil_r; reflexivity | rewrite length_app; lia |].
    destruct (prefix_split (l ++ [13; 10]) (l ++ 13 :: 10 :: r) [] r)
      as [_ H2]; [rewrite app_nil_r, <- app_assoc; reflexivity
                 | rewrite !length_app; simpl; lia |].
    rewrite length_app in H2. simpl in H2. rewrite app_nil_r in H2.
    rewrite H1. eexists; split; [reflexivity|].
    unfold content; simpl. rewrite app_nil_r. exact H2.
  - simpl. destruct (find_crlf b) as [i|] eqn:E.
    + assert (Hi : i = length l).
      { pose proof (find_crlf_extend b (c ++ concat s) i E) as E'.
        rewrite Hc, (find_crlf_line l r Hl) in E'. injection E' as ->. reflexivity. }
      subst i. pose proof (find_crlf_bound b _ E) as Hb.
      destruct (prefix_split l b (c ++ concat s) (13 :: 10 :: r) Hc ltac:(lia))
        as [H1 _].
      destruct (prefix_split (l ++ [13; 10]) b (c ++ concat s) r)
        as [_ H2]; [rewrite Hc, <- app_assoc; reflexivity
                   | rewrite length_app; simpl; lia |].
      rewrite length_app in H2. simpl in H2.
      rewrite H1. eexists; split; [reflexivity|].
      unfold content; simpl. exact H2.
    + destruct (IH (b ++ c) l r) as [sb' [H1 H2]].
      * rewrite <- app_assoc. exact Hc.
      * exact Hl.
      * exists sb'. split; [exact H1 | exact H2].
Qed.

Lemma ensure_loop_content :
  forall n s b, content (ensure_loop n b s) = b ++ concat s.
Proof.
  intros n. induction s as [|c s IH]; intros b; simpl.
  - destruct (Z.of_nat (length b) <? n); reflexivity.
  - destruct (Z.of_nat (length b) <? n); [|reflexivity].
    rewrite IH, app_assoc. reflexivity.
Qed.

Lemma ensure_loop_filled :
  forall n s b, n <= Z.of_nat (length (b ++ concat s)) ->
    n <= Z.of_nat (length (ensure_loop n b s).(buf)).
Proof.
  intros n. induction s as [|c s IH]; intros b H; simpl in *.
  - rewrite app_nil_r in H.
    destruct (Z.of_nat (length b) <? n); simpl; exact H.
  - destruct (Z.of_nat (length b) <? n) eqn:E.
    + apply IH. rewrite <- app_assoc. exact H.
    + simpl. apply Z.ltb_ge in E. exact E.
Qed.

Lemma buf_length_content :
  forall sb, (length sb.(buf) <= length (content sb))%nat.
Proof. intros sb. unfold content. rewrite length_app. lia. Qed.

(** [readBytes(n)] takes exactly [n] bytes of what remains, across chunk
    boundaries, and throws [InvalidStateError] if fewer remain. *)
Lemma readBytes_exact :
  forall n sb, 0 <= n ->
    if Z.of_nat (length (content sb)) <? n
    then fst (readBytes (Some n) sb) = Err InvalidStateError
    else fst (readBytes (Some n) sb) = Ok (firstn (Z.to_nat n) (content sb)) /\
         content (snd (readBytes (Some n) sb)) = skipn (Z.to_nat n) (content sb).
Proof.
  intros n [b s] Hn. unfold readBytes; simpl.
  pose proof (ensure_loop_content n s b) as Hc.
  pose proof (buf_length_content (ensure_loop n b s)) as Hl.
  destruct (ensure_loop n b s) as [b1 s1] eqn:E. simpl in *.
  unfold content in *; simpl in *.
  destruct (Z.of_nat (length (b ++ concat s)) <? n) eqn:Hlt.
  - apply Z.ltb_lt in Hlt. rewrite <- Hc in Hlt.
    rewrite length_app in Hlt.
    replace (Z.of_nat (length b1) <? n) with true by (symmetry; apply Z.ltb_lt; lia).
    reflexivity.
  - apply Z.ltb_ge in Hlt.
    pose proof (ensure_loop_filled n s b Hlt) as Hf. rewrite E in Hf. simpl in Hf.
    replace (Z.of_nat (length b1) <? n) with false by (symmetry; apply Z.ltb_ge; lia).
    simpl. rewrite <- Hc.
    rewrite firstn_app, (proj2 (Nat.sub_0_le _ _)) by lia. simpl.
    rewrite app_nil_r, skipn_app, (proj2 (Nat.sub_0_le (Z.to_nat n) _)) by lia.
    split; reflexivity.
Qed.

(** [peek(1)] returns the first byte still to be read, or [null] at the end
    of the stream, and consumes nothing. *)
Lemma peek_first :
  forall sb,
    fst (peek 1 sb) = Ok (match content sb with [] => None | x :: _ => Some [x] end) /\
    content (snd (peek 1 sb)) = content sb.
Proof.
  intros [b s]. unfold peek; simpl.
  pose proof (ensure_loop_content 1 s b) as Hc.
  destruct (content (mkSB b s)) as [|x r] eqn:Ec; unfold content in Ec; simpl in Ec.
  - destruct (ensure_loop 1 b s) as [b1 s1] eqn:E. unfold content in Hc; simpl in *.
    rewrite Ec in Hc. destruct b1; [|discriminate Hc].
    split; [reflexivity|]. unfold content; simpl in *. congruence.
  - pose proof (ensure_loop_filled 1 s b) as Hf. rewrite Ec in Hf. simpl in Hf.
    specialize (Hf ltac:(lia)).
    destruct (ensure_loop 1 b s) as [b1 s1] eqn:E. unfold content in Hc; simpl in *.
    rewrite Ec in Hc. destruct b1 as [|y b1]; simpl in Hf; [lia|].
    simpl in Hc. injection Hc as -> Hr.
    split; [reflexivity|]. unfold content; simpl in *. rewrite Hr. reflexivity.
Qed.

Lemma bind_ok :
  forall {A B} (m : M A) (k : A -> M B) sb a sb',
    m sb = (Ok a, sb') -> bind m k sb = k a sb'.
Proof. intros A B m k sb a sb' H. unfold bind. rewrite H. reflexivity. Qed.

(** ** Decimal sizes *)

Lemma is_digit_cases :
  forall c, is_digit c = true -> In c [48; 49; 50; 51; 52; 53; 54; 55; 56; 57].
Proof.
  intros c H. unfold is_digit, in_range in H.
  apply andb_prop in H as [H1 H2]. apply Z.leb_le in H1. apply Z.leb_le in H2.
  simpl. lia.
Qed.

Ltac digit_cases c H :=
  let Hin := fresh in
  pose proof (is_digit_cases c H) as Hin; simpl in Hin;
  repeat destruct Hin as [<-|Hin]; try contradiction.

Lemma utf8_decode_digits :
  forall ds, forallb is_digit ds = true -> utf8_decode_fuel (length ds) ds = ds.
Proof.
  induction ds as [|d ds IH]; intros H; [reflexivity|].
  simpl in H. apply andb_prop in H as [Hd Hds].
  assert (Hl : utf8_lead d = Some (0%nat, 128, 191, d)).
  { unfold utf8_lead. unfold is_digit, in_range in Hd.
    apply andb_prop in Hd as [_ Hd]. apply Z.leb_le in Hd.
    replace (d <=? 127) with true by (symmetry; apply Z.leb_le; lia). reflexivity. }
  simpl. rewrite Hl. simpl. rewrite (IH Hds). reflexivity.
Qed.

Lemma decode_digits :
  forall ds, forallb is_digit ds = true -> decode ds = ds.
Proof.
  intros [|d ds] H; [reflexivity|].
  rewrite <- (utf8_decode_digits (d :: ds) H) at 2.
  simpl in H. apply andb_prop in H as [Hd _].
  digit_cases d Hd; reflexivity.
Qed.

Lemma digit_run_digits :
  forall ds, forallb is_digit ds = true -> digit_run 10 ds = map (fun c => c - 48) ds.
Proof.
  induction ds as [|d ds IH]; intros H; [reflexivity|].
  simpl in H. apply andb_prop in H as [Hd Hds].
  simpl. unfold digit_value. unfold is_digit in Hd. rewrite Hd.
  unfold in_range in Hd. apply andb_prop in Hd as [H1 H2].
  apply Z.leb_le in H1. apply Z.leb_le in H2.
  replace (d - 48 <? 10) with true by (symmetry; apply Z.ltb_lt; lia).
  rewrite (IH Hds). reflexivity.
Qed.

Lemma parse_integer_digits_shape :
  forall d ds, is_digit d = true -> forallb is_digit ds = true ->
    parse_integer (d :: ds) =
    match digit_run 10 (d :: ds) with
    | [] => None
    | l => Some (1 * digits_to_Z 10 l)
    end.
Proof.
  intros d ds Hd Hds.
  digit_cases d Hd; try reflexivity.
  destruct ds as [|c ds]; [reflexivity|].
  simpl in Hds. apply andb_prop in Hds as [Hc _].
  digit_cases c Hc; reflexivity.
Qed.

(** [parseInt] reads a run of decimal digits as its decimal value. *)
Lemma parseSize_digits :
  forall ds, ds <> [] -> forallb is_digit ds = true ->
    parseSize (36 :: ds) = Some (decimal_value ds).
Proof.
  intros [|d ds] Hne H; [congruence|].
  unfold parseSize. simpl skipn. rewrite (decode_digits _ H).
  simpl in H. apply andb_prop in H as [Hd Hds].
  rewrite (parse_integer_digits_shape d ds Hd Hds).
  rewrite digit_run_digits by (simpl; rewrite Hd, Hds; reflexivity).
  simpl map. cbv iota beta. rewrite Z.mul_1_l. reflexivity.
Qed.

(** ** Bulk frames *)

Lemma find_crlf_no_cr :
  forall l, forallb (fun c => negb (c =? 13)) l = true -> find_crlf l = None.
Proof.
  induction l as [|a l IH]; intros H; [reflexivity|].
  simpl in H. apply andb_prop in H as [Ha Hl].
  destruct l as [|b' l']; [reflexivity|].
  rewrite find_crlf_cons, (IH Hl).
  apply negb_true_iff in Ha. rewrite Ha. reflexivity.
Qed.

Lemma digits_no_cr :
  forall ds, forallb is_digit ds = true -> forallb (fun c => negb (c =? 13)) ds = true.
Proof.
  induction ds as [|d ds IH]; intros H; [reflexivity|].
  simpl in H |- *. apply andb_prop in H as [Hd Hds].
  rewrite (IH Hds), andb_true_r.
  unfold is_digit, in_range in Hd. apply andb_prop in Hd as [H1 _].
  apply Z.leb_le in H1. apply negb_true_iff, Z.eqb_neq. lia.
Qed.

Lemma readLine_header :
  forall sb ds rest,
    forallb is_digit ds = true ->
    content sb = 36 :: ds ++ 13 :: 10 :: rest ->
    exists sb', readLine sb = (Ok (Some (36 :: ds)), sb') /\ content sb' = rest.
Proof.
  intros [b s] ds rest Hds Hc. unfold readLine; simpl.
  apply readLine_loop_line; [exact Hc|].
  apply find_crlf_no_cr. simpl. rewrite (digits_no_cr ds Hds). reflexivity.
Qed.

Lemma readBytes_ok :
  forall n sb x,
    0 <= n -> Z.to_nat n = length x -> content sb = x ++ skipn (length x) (content sb) ->
    exists sb', readBytes (Some n) sb = (Ok x, sb') /\
                content sb' = skipn (length x) (content sb).
Proof.
  intros n sb x Hn Hx Hc.
  pose proof (readBytes_exact n sb Hn) as H.
  assert (Hl : (length x <= length (content sb))%nat)
    by (rewrite Hc, length_app; lia).
  replace (Z.of_nat (length (content sb)) <? n) with false in H
    by (symmetry; apply Z.ltb_ge; lia).
  destruct (readBytes (Some n) sb) as [r sb'] eqn:E. simpl in H.
  destruct H as [H1 H2]. exists sb'. rewrite H1, H2, Hx.
  rewrite Hc at 1. rewrite firstn_app, firstn_all, Nat.sub_diag, app_nil_r.
  split; reflexivity.
Qed.

Lemma readBytes_short :
  forall n sb,
    0 <= n -> Z.of_nat (length (content sb)) < n ->
    fst (readBytes (Some n) sb) = Err InvalidStateError.
Proof.
  intros n sb Hn Hl.
  pose proof (readBytes_exact n sb Hn) as H.
  replace (Z.of_nat (length (content sb)) <? n) with true in H
    by (symmetry; apply Z.ltb_lt; lia).
  exact H.
Qed.

Lemma bind_err :
  forall {A B} (m : M A) (k : A -> M B) sb e sb',
    m sb = (Err e, sb') -> bind m k sb = (Err e, sb').
Proof. intros A B m k sb e sb' H. unfold bind. rewrite H. reflexivity. Qed.

(** A bulk frame with a size of [N] decimal digits reads exactly [N] bytes
    of payload, whatever they are, and then requires CRLF. *)
Lemma readBulkReplyBody_sized :
  forall sb ds payload t,
    ds <> [] -> forallb is_digit ds = true ->
    decimal_value ds = Z.of_nat (length payload) ->
    content sb = 36 :: ds ++ 13 :: 10 :: payload ++ t ->
    fst (readBulkReplyBody sb) =
      if list_eq_dec Z.eq_dec (firstn 2 t) [13; 10]
      then Ok (Some payload) else Err InvalidStateError.
Proof.
  intros sb ds payload t Hne Hds Hn Hc.
  destruct (readLine_header sb ds (payload ++ t) Hds Hc) as [sb1 [H1 Hc1]].
  unfold readBulkReplyBody. rewrite (bind_ok _ _ _ _ _ H1).
  replace (negb (line_head (36 :: ds) =? BulkReplyCode)) with false by reflexivity.
  unfold parseSize in *. cbv zeta.
  pose proof (parseSize_digits ds Hne Hds) as Hp. unfold parseSize in Hp. rewrite Hp.
  replace (decimal_value ds <? 0) with false by (symmetry; apply Z.ltb_ge; lia).
  destruct (readBytes_ok (decimal_value ds) sb1 payload) as [sb2 [H2 Hc2]];
    [lia | lia | rewrite Hc1, skipn_app, skipn_all, Nat.sub_diag; reflexivity |].
  rewrite (bind_ok _ _ _ _ _ H2).
  rewrite Hc1, skipn_app, skipn_all, Nat.sub_diag in Hc2. simpl in Hc2.
  destruct t as [|a [|b t']].
  - destruct (readBytes (Some 2) sb2) as [r sb3] eqn:E.
    pose proof (readBytes_short 2 sb2 ltac:(lia)) as Hs.
    rewrite Hc2, E in Hs. simpl in Hs. specialize (Hs ltac:(lia)). subst r.
    rewrite (bind_err _ _ _ _ _ E). reflexivity.
  - destruct (readBytes (Some 2) sb2) as [r sb3] eqn:E.
    pose proof (readBytes_short 2 sb2 ltac:(lia)) as Hs.
    rewrite Hc2, E in Hs. simpl in Hs. specialize (Hs ltac:(lia)). subst r.
    rewrite (bind_err _ _ _ _ _ E).
    destruct (list_eq_dec Z.eq_dec (firstn 2 [a]) [13; 10]) as [Ht|Ht];
      [discriminate Ht | reflexivity].
  - destruct (readBytes_ok 2 sb2 [a; b]) as [sb3 [H3 _]];
      [lia | reflexivity | rewrite Hc2; reflexivity |].
    rewrite (bind_ok _ _ _ _ _ H3). simpl firstn.
    destruct (list_eq_dec Z.eq_dec [a; b] [13; 10]) as [Ht|Ht].
    + injection Ht as -> ->. reflexivity.
    + simpl. destruct (a =? 13) eqn:Ea; destruct (b =? 10) eqn:Eb; try reflexivity.
      apply Z.eqb_eq in Ea, Eb. subst. contradiction Ht; reflexivity.
Qed.

(** [readReply] on a stream that starts with [$] decodes a bulk frame. *)
Lemma readReply_bulk :
  forall chunks x, concat chunks = 36 :: x ->
    exists sb1, content sb1 = concat chunks /\
      fst (readReply chunks) =
        match fst (readBulkReplyBody sb1) with
        | Ok b => Ok (BulkReply b)
        | Err e => Err e
        end.
Proof.
  intros chunks x Hx.
  destruct (peek_first (mkSB [] chunks)) as [Hp Hc].
  destruct (peek 1 (mkSB [] chunks)) as [r1 sb1] eqn:Ep.
  simpl in Hp, Hc. unfold content in Hp, Hc at 2. simpl in Hp, Hc.
  rewrite Hx in Hp. subst r1.
  exists sb1. split; [exact Hc|].
  unfold readReply.
  destruct (readReply_sb (S (length (concat chunks))) (mkSB [] chunks)) as [r sb2] eqn:Er.
  simpl. unfold readReply_sb in Er. rewrite (bind_ok _ _ _ _ _ Ep) in Er.
  cbn -[readBulkReplyBody readArrayReplyBody readIntegerReplyBody
        readSimpleStringReplyBody readLine] in Er.
  unfold bind in Er.
  destruct (readBulkReplyBody sb1) as [[b|e] sb3]; injection Er as <- _; reflexivity.
Qed.

Lemma readLine_nocr :
  forall sb l rest,
    forallb (fun c => negb (c =? 13)) l = true ->
    content sb = l ++ 13 :: 10 :: rest ->
    exists sb', readLine sb = (Ok (Some l), sb') /\ content sb' = rest.
Proof.
  intros [b s] l rest Hl Hc. unfold readLine; simpl.
  apply readLine_loop_line; [exact Hc | apply find_crlf_no_cr, Hl].
Qed.

(** [$-1] is the null bulk string: nothing more is read. *)
Lemma readBulkReplyBody_null :
  forall sb rest,
    content sb = ascii_bytes "$-1" ++ 13 :: 10 :: rest ->
    fst (readBulkReplyBody sb) = Ok None.
Proof.
  intros sb rest Hc.
  destruct (readLine_nocr sb (ascii_bytes "$-1") rest eq_refl Hc) as [sb1 [H1 _]].
  unfold readBulkReplyBody. rewrite (bind_ok _ _ _ _ _ H1). reflexivity.
Qed.

(** C5: for every way the stream splits the bytes into chunks,
    - [$-1] followed by CRLF decodes to the null bulk reply;
    - [$0] followed by CRLF CRLF decodes to the empty byte string, whose
      value (the empty string) is not [null];
    - a size of [N] decimal digits followed by CRLF reads exactly the next
      [N] bytes as the payload, and then decodes to them if CRLF follows and
      throws [InvalidStateError] otherwise (also when the stream ends). *)
Theorem bulk_frame_decoding :
  (forall chunks rest,
     concat chunks = ascii_bytes "$-1" ++ CRLF ++ rest ->
     fst (readReply chunks) = Ok (BulkReply None)) /\
  (forall chunks rest,
     concat chunks = ascii_bytes "$0" ++ CRLF ++ CRLF ++ rest ->
     fst (readReply chunks) = Ok (BulkReply (Some [])) /\
     reply_value (BulkReply (Some [])) <> reply_value (BulkReply None)) /\
  (forall chunks ds payload t,
     ds <> [] -> forallb is_digit ds = true ->
     decimal_value ds = Z.of_nat (length payload) ->
     concat chunks = 36 :: ds ++ CRLF ++ payload ++ t ->
     fst (readReply chunks) =
       if list_eq_dec Z.eq_dec (firstn 2 t) CRLF
       then Ok (BulkReply (Some payload)) else Err InvalidStateError).
Proof.
  assert (Hsized : forall chunks ds payload t,
     ds <> [] -> forallb is_digit ds = true ->
     decimal_value ds = Z.of_nat (length payload) ->
     concat chunks = 36 :: ds ++ CRLF ++ payload ++ t ->
     fst (readReply chunks) =
       if list_eq_dec Z.eq_dec (firstn 2 t) CRLF
       then Ok (BulkReply (Some payload)) else Err InvalidStateError).
  { intros chunks ds payload t Hne Hds Hn Hc. unfold CRLF in *.
    destruct (readReply_bulk chunks _ Hc) as [sb1 [Hc1 ->]].
    rewrite Hc in Hc1.
    rewrite (readBulkReplyBody_sized sb1 ds payload t Hne Hds Hn Hc1).
    destruct (list_eq_dec Z.eq_dec (firstn 2 t) [13; 10]); reflexivity. }
  split; [|split].
  - intros chunks rest Hc.
    destruct (readReply_bulk chunks _ Hc) as [sb1 [Hc1 ->]].
    rewrite Hc in Hc1.
    rewrite (readBulkReplyBody_null sb1 rest Hc1). reflexivity.
  - intros chunks rest Hc. split.
    + rewrite (Hsized chunks [48] [] (CRLF ++ rest)); try reflexivity.
      * discriminate.
      * exact Hc.
    + discriminate.
  - exact Hsized.
Qed.

Lemma bulk_frame_decoding_witness :
  let chunks := [ascii_bytes "$5" ++ CRLF ++ ascii_bytes "hel"; ascii_bytes "lo" ++ CRLF] in
  concat chunks = 36 :: ascii_bytes "5" ++ CRLF ++ ascii_bytes "hello" ++ CRLF /\
  fst (readReply chunks) = Ok (BulkReply (Some (ascii_bytes "hello"))) /\
  fst (readReply [ascii_bytes "$-1" ++ CRLF]) = Ok (BulkReply None) /\
  fst (readReply [ascii_bytes "$0" ++ CRLF ++ CRLF]) = Ok (BulkReply (Some [])).
Proof.
  intro chunks.
  destruct bulk_frame_decoding as [Hnull [Hempty Hsized]].
  split; [reflexivity|]. split; [|split].
  - exact (Hsized chunks (ascii_bytes "5") (ascii_bytes "hello") CRLF
             ltac:(discriminate) eq_refl eq_refl eq_refl).
  - exact (Hnull [ascii_bytes "$-1" ++ CRLF] [] eq_refl).
  - exact (proj1 (Hempty [ascii_bytes "$0" ++ CRLF ++ CRLF] [] eq_refl)).
Defined.

(** ** Decimal numerals written by [String(n)] *)

Lemma uint_digits_digits : forall u, forallb is_digit (uint_digits u) = true.
Proof. induction u; simpl; try rewrite IHu; reflexivity. Qed.

Lemma of_uint_acc_value :
  forall u acc,
    Zpos (Pos.of_uint_acc u acc) =
    fold_left (fun a d => a * 10 + d) (map (fun c => c - 48) (uint_digits u)) (Zpos acc).
Proof.
  induction u; intros acc; cbn [Pos.of_uint_acc uint_digits map fold_left];
    try reflexivity;
    rewrite IHu; f_equal; rewrite ?Pos2Z.inj_add, Pos2Z.inj_mul; lia.
Qed.

Lemma of_uint_value :
  forall u, Z.of_N (Pos.of_uint u) = decimal_value (uint_digits u).
Proof.
  unfold decimal_value, digits_to_Z.
  induction u; simpl; try (rewrite <- of_uint_acc_value; reflexivity).
  - reflexivity.
  - exact IHu.
Qed.

Lemma show_N_nonempty : forall n, uint_digits (N.to_uint n) <> [].
Proof.
  intros [|p]; [discriminate|].
  simpl. pose proof (DecimalPos.Unsigned.to_uint_nonnil p) as H.
  destruct (Pos.to_uint p); simpl; try discriminate. contradiction.
Qed.

Lemma show_Z_nonneg :
  forall n, 0 <= n -> show_Z n = uint_digits (N.to_uint (Z.to_N n)).
Proof. intros [|p|p] H; try reflexivity. lia. Qed.

Lemma decimal_value_show :
  forall n, 0 <= n -> decimal_value (show_Z n) = n.
Proof.
  intros n Hn. rewrite show_Z_nonneg by exact Hn.
  rewrite <- of_uint_value.
  change (Pos.of_uint (N.to_uint (Z.to_N n))) with (N.of_uint (N.to_uint (Z.to_N n))).
  rewrite DecimalN.Unsigned.of_to. lia.
Qed.

Lemma encode_digits : forall ds, forallb is_digit ds = true -> encode ds = ds.
Proof.
  induction ds as [|d ds IH]; intros H; [reflexivity|].
  simpl in H. apply andb_prop in H as [Hd Hds].
  unfold encode in *. simpl. rewrite (IH Hds).
  unfold utf8_encode_cp. unfold is_digit, in_range in Hd.
  apply andb_prop in Hd as [_ Hd]. apply Z.leb_le in Hd.
  replace (d <? 128) with true by (symmetry; apply Z.ltb_lt; lia). reflexivity.
Qed.

(** What [encoder.encode(String(n))] writes for a size or count [n]: a
    non-empty run of decimal digits whose value is [n]. *)
Lemma encode_show_size :
  forall n, 0 <= n ->
    encode (show_Z n) = show_Z n /\ show_Z n <> [] /\
    forallb is_digit (show_Z n) = true /\ decimal_value (show_Z n) = n.
Proof.
  intros n Hn.
  assert (E : show_Z n = uint_digits (N.to_uint (Z.to_N n))) by (apply show_Z_nonneg, Hn).
  split; [apply encode_digits; rewrite E; apply uint_digits_digits|].
  split; [rewrite E; apply show_N_nonempty|].
  split; [rewrite E; apply uint_digits_digits|].
  apply decimal_value_show, Hn.
Qed.

(** ** Request frames read back *)

Lemma ref_line_digit :
  forall c x, is_digit c = true ->
    ref_line (c :: x) = option_map (fun '(a, b) => (c :: a, b)) (ref_line x).
Proof. intros c x H. digit_cases c H; reflexivity. Qed.

Lemma ref_line_digits :
  forall ds r, forallb is_digit ds = true -> ref_line (ds ++ 13 :: 10 :: r) = Some (ds, r).
Proof.
  induction ds as [|d ds IH]; intros r H; [reflexivity|].
  simpl in H. apply andb_prop in H as [Hd Hds].
  rewrite <- app_comm_cons, (ref_line_digit d _ Hd), (IH r Hds). reflexivity.
Qed.

Lemma digits_uint_of : forall u, digits_uint (uint_digits u) = Some u.
Proof. induction u; simpl; try rewrite IHu; reflexivity. Qed.

Lemma ref_count_show :
  forall n, 0 <= n -> ref_count (show_Z n) = Some (Z.to_nat n).
Proof.
  intros n Hn. rewrite (show_Z_nonneg n Hn).
  pose proof (show_N_nonempty (Z.to_N n)) as Hne.
  unfold ref_count. destruct (uint_digits (N.to_uint (Z.to_N n))) eqn:E;
    [contradiction|].
  rewrite <- E, digits_uint_of. simpl.
  rewrite DecimalN.Unsigned.of_to, Z_N_nat. reflexivity.
Qed.

Lemma ref_bulk_frame :
  forall b r, ref_bulk (bulk_frame b ++ r) = Some (b, r).
Proof.
  intros b r. unfold bulk_frame.
  destruct (encode_show_size (Z.of_nat (length b)) ltac:(lia)) as [He [_ [Hd _]]].
  rewrite He. unfold CRLF.
  change (ascii_bytes "$") with [36].
  rewrite <- !app_assoc. cbn [List.app]. unfold ref_bulk.
  rewrite (ref_line_digits _ _ Hd). rewrite ref_count_show by lia. rewrite Nat2Z.id.
  rewrite skipn_app, skipn_all, Nat.sub_diag. simpl.
  rewrite length_app, (proj2 (Nat.leb_le _ _)) by lia.
  rewrite firstn_app, firstn_all, Nat.sub_diag, app_nil_r. reflexivity.
Qed.

Lemma ref_bulks_frames :
  forall bs r, ref_bulks (length bs) (flat_map bulk_frame bs ++ r) = Some (bs, r).
Proof.
  induction bs as [|b bs IH]; intros r; [reflexivity|].
  cbn [length flat_map ref_bulks]. rewrite <- app_assoc, ref_bulk_frame, IH.
  reflexivity.
Qed.

Lemma flat_map_map_comp :
  forall (A B C : Type) (f : B -> list C) (g : A -> B) (l : list A),
    flat_map (fun x => f (g x)) l = flat_map f (map g l).
Proof. induction l as [|x l IH]; simpl; [reflexivity | rewrite IH; reflexivity]. Qed.

Lemma encode_ascii :
  forall s, forallb (in_range 0 127) s = true ->
    encode s = s /\ js_length s = Z.of_nat (length s).
Proof.
  induction s as [|c s IH]; intros H; [split; reflexivity|].
  simpl in H. apply andb_prop in H as [Hc Hs].
  destruct (IH Hs) as [H1 H2].
  unfold in_range in Hc. apply andb_prop in Hc as [_ Hc]. apply Z.leb_le in Hc.
  unfold encode, js_length in *. simpl. split.
  - rewrite H1. unfold utf8_encode_cp.
    replace (c <? 128) with true by (symmetry; apply Z.ltb_lt; lia). reflexivity.
  - rewrite H2. replace (65536 <=? c) with false by (symmetry; apply Z.leb_gt; lia). lia.
Qed.

(** For a command name of ASCII characters (every Redis command), the
    request [_writeCommand] writes is one RESP2 array of bulk strings, read
    back exactly as the command's bytes followed by the bytes of each
    argument that is not [null] or [undefined], in order, with nothing
    left over.  A [Uint8Array] argument is sent as is, even when it holds
    CR or LF bytes. *)
Theorem writeRequest_round_trip :
  forall command args,
    forallb (in_range 0 127) command = true ->
    ref_parse_array (writeRequest command args) =
      Some (command :: map arg_bytes (filter is_present args), []).
Proof.
  intros command args Hc.
  destruct (encode_ascii command Hc) as [Ee Ej].
  set (l := filter is_present args).
  assert (Hn : 1 + Z.of_nat (length l) = Z.of_nat (length (command :: map arg_bytes l)))
    by (cbn [length]; rewrite length_map; lia).
  destruct (encode_show_size (1 + Z.of_nat (length l)) ltac:(lia)) as [He [_ [Hd _]]].
  unfold writeRequest. fold l. rewrite He, Ej.
  assert (Hbody :
    ascii_bytes "$" ++ encode (show_Z (Z.of_nat (length command))) ++ CRLF ++
      encode command ++ CRLF ++ flat_map (fun arg => bulk_frame (arg_bytes arg)) l =
    flat_map bulk_frame (command :: map arg_bytes l) ++ []).
  { rewrite app_nil_r. cbn [flat_map]. rewrite <- flat_map_map_comp, Ee.
    change (bulk_frame command) with
      (ascii_bytes "$" ++ encode (show_Z (Z.of_nat (length command))) ++ CRLF ++
       command ++ CRLF).
    rewrite <- !app_assoc. reflexivity. }
  rewrite Hbody. unfold CRLF. change (ascii_bytes "*") with [42].
  rewrite <- ?app_assoc. cbn [List.app]. unfold ref_parse_array.
  rewrite (ref_line_digits _ _ Hd). rewrite ref_count_show by lia.
  rewrite Hn, Nat2Z.id.
  apply ref_bulks_frames.
Qed.

Lemma writeRequest_round_trip_witness :
  let args := [VStr (ascii_bytes "key"); VNull; VNum (-5); VUndefined; VBytes [0; 13; 10]] in
  forallb (in_range 0 127) (ascii_bytes "SET") = true /\
  ref_parse_array (writeRequest (ascii_bytes "SET") args) =
    Some ([ascii_bytes "SET"; ascii_bytes "key"; ascii_bytes "-5"; [0; 13; 10]], []).
Proof.
  intro args. split; [reflexivity|].
  exact (writeRequest_round_trip (ascii_bytes "SET") args eq_refl).
Defined.

(** ** Replies by their first byte *)

Lemma readReply_fst :
  forall chunks,
    fst (readReply chunks) = fst (readReply_sb (S (length (concat chunks))) (mkSB [] chunks)).
Proof.
  intros chunks. unfold readReply.
  destruct (readReply_sb _ _); reflexivity.
Qed.

Lemma peek_code :
  forall chunks c x, concat chunks = c :: x ->
    exists sb1, peek 1 (mkSB [] chunks) = (Ok (Some [c]), sb1) /\
                content sb1 = concat chunks.
Proof.
  intros chunks c x Hx.
  destruct (peek_first (mkSB [] chunks)) as [Hp Hc].
  destruct (peek 1 (mkSB [] chunks)) as [r1 sb1] eqn:Ep.
  simpl in Hp, Hc. unfold content in Hp, Hc at 2. simpl in Hp, Hc.
  rewrite Hx in Hp. subst r1. exists sb1. split; [reflexivity | exact Hc].
Qed.

Lemma no_cr_cons :
  forall c l, c <> 13 -> forallb (fun c => negb (c =? 13)) l = true ->
    forallb (fun c => negb (c =? 13)) (c :: l) = true.
Proof.
  intros c l Hc Hl. simpl. rewrite Hl, andb_true_r.
  apply negb_true_iff, Z.eqb_neq. exact Hc.
Qed.

Lemma readIntegerReplyBody_line :
  forall sb l sb', readLine sb = (Ok (Some l), sb') ->
    readIntegerReplyBody sb = (Ok (skipn 1 l), sb').
Proof.
  intros sb l sb' H. unfold readIntegerReplyBody. rewrite (bind_ok _ _ _ _ _ H).
  reflexivity.
Qed.

Lemma readSimpleStringReplyBody_line :
  forall sb s sb', readLine sb = (Ok (Some (43 :: s)), sb') ->
    readSimpleStringReplyBody sb = (Ok s, sb').
Proof.
  intros sb s sb' H. unfold readSimpleStringReplyBody.
  rewrite (bind_ok _ _ _ _ _ H). reflexivity.
Qed.

(** An error frame [-<message>] CRLF makes [readReply] throw an
    [ErrorReplyError] carrying the decoded line, dash included, however
    the stream splits it into chunks. *)
Theorem readReply_error_frame :
  forall chunks l rest,
    forallb (fun c => negb (c =? 13)) l = true ->
    concat chunks = 45 :: l ++ CRLF ++ rest ->
    fst (readReply chunks) = Err (ErrorReplyError (decode (45 :: l))).
Proof.
  intros chunks l rest Hl Hx. unfold CRLF in Hx.
  destruct (peek_code chunks _ _ Hx) as [sb1 [Ep Hc1]].
  rewrite Hx in Hc1.
  destruct (readLine_nocr sb1 (45 :: l) rest (no_cr_cons 45 l ltac:(lia) Hl) Hc1)
    as [sb2 [H2 _]].
  rewrite readReply_fst. unfold readReply_sb. rewrite (bind_ok _ _ _ _ _ Ep).
  cbn -[readLine decode]. unfold bind. rewrite H2. reflexivity.
Qed.

Lemma readReply_error_frame_witness :
  forallb (fun c => negb (c =? 13)) (ascii_bytes "ERR wrong type") = true /\
  fst (readReply [ascii_bytes "-ERR wr"; ascii_bytes "ong type" ++ CRLF]) =
    Err (ErrorReplyError (ascii_bytes "-ERR wrong type")).
Proof.
  split; [reflexivity|].
  exact (readReply_error_frame [ascii_bytes "-ERR wr"; ascii_bytes "ong type" ++ CRLF]
           (ascii_bytes "ERR wrong type") [] eq_refl eq_refl).
Defined.

Lemma decode_minus_digits :
  forall ds, forallb is_digit ds = true -> decode (45 :: ds) = 45 :: ds.
Proof.
  intros ds H. unfold decode. simpl. rewrite (utf8_decode_digits ds H). reflexivity.
Qed.

Lemma parse_integer_neg_digits :
  forall d ds, is_digit d = true -> forallb is_digit ds = true ->
    parse_integer (45 :: d :: ds) = option_map Z.opp (parse_integer (d :: ds)).
Proof.
  intros d ds Hd Hds.
  assert (Hfin : forall l : list Z,
    match l with [] => None | z :: l' => Some (-1 * digits_to_Z 10 (z :: l')) end =
    option_map Z.opp
      (match l with [] => None | z :: l' => Some (1 * digits_to_Z 10 (z :: l')) end)).
  { intros [|x l]; [reflexivity|]. cbn [option_map]. f_equal. lia. }
  digit_cases d Hd;
    try (unfold parse_integer; cbn -[digit_run digits_to_Z]; apply Hfin).
  destruct ds as [|c ds]; [reflexivity|].
  simpl in Hds. apply andb_prop in Hds as [Hc _].
  digit_cases c Hc; unfold parse_integer; cbn -[digit_run digits_to_Z]; apply Hfin.
Qed.

Lemma decimal_value_nonneg :
  forall ds, forallb is_digit ds = true -> 0 <= decimal_value ds.
Proof.
  intros ds. unfold decimal_value, digits_to_Z.
  assert (G : forall acc, 0 <= acc -> forallb is_digit ds = true ->
            0 <= fold_left (fun a d => a * 10 + d) (map (fun c => c - 48) ds) acc).
  { induction ds as [|d ds IH]; intros acc Ha H; [exact Ha|].
    simpl in H. apply andb_prop in H as [Hd Hds].
    unfold is_digit, in_range in Hd. apply andb_prop in Hd as [Hd _].
    apply Z.leb_le in Hd. cbn [map fold_left]. apply IH; [lia | exact Hds]. }
  intros H. apply G; [lia | exact H].
Qed.

(** A number of magnitude at most [2^53] is the integer itself. *)
Lemma to_number_exact :
  forall z, Z.abs z <= 2 ^ 53 -> to_number z = Finite z.
Proof.
  intros z H. unfold to_number, round_to_double.
  rewrite (proj2 (Z.leb_le _ _) H).
  assert (Hp : 2 ^ 53 < 2 ^ 1024) by (apply Z.pow_lt_mono_r; lia).
  rewrite (proj2 (Z.leb_gt (2 ^ 1024) (Z.abs z)) ltac:(lia)).
  destruct (z <? 0) eqn:E; [apply Z.ltb_lt in E | apply Z.ltb_ge in E]; f_equal; lia.
Qed.

(** An integer frame [:<line>] CRLF decodes to an [IntegerReply] holding
    the line after the colon.  When that line is a run of decimal digits,
    optionally after a minus sign, the reply's value is that integer
    rounded to a number, which is the integer itself up to [2^53] in
    magnitude. *)
Theorem readReply_integer_frame :
  forall chunks l rest,
    forallb (fun c => negb (c =? 13)) l = true ->
    concat chunks = 58 :: l ++ CRLF ++ rest ->
    fst (readReply chunks) = Ok (IntegerReply l) /\
    (forall ds, ds <> [] -> forallb is_digit ds = true ->
       (l = ds -> reply_value (IntegerReply l) = RNum (to_number (decimal_value ds))) /\
       (l = 45 :: ds -> reply_value (IntegerReply l) = RNum (to_number (- decimal_value ds))) /\
       (decimal_value ds <= 2 ^ 53 ->
          to_number (decimal_value ds) = Finite (decimal_value ds) /\
          to_number (- decimal_value ds) = Finite (- decimal_value ds))).
Proof.
  intros chunks l rest Hl Hx. split.
  - unfold CRLF in Hx.
    destruct (peek_code chunks _ _ Hx) as [sb1 [Ep Hc1]].
    rewrite Hx in Hc1.
    destruct (readLine_nocr sb1 (58 :: l) rest (no_cr_cons 58 l ltac:(lia) Hl) Hc1)
      as [sb2 [H2 _]].
    rewrite readReply_fst. unfold readReply_sb. rewrite (bind_ok _ _ _ _ _ Ep).
    cbn -[readLine readIntegerReplyBody]. unfold bind.
    rewrite (readIntegerReplyBody_line _ _ _ H2). reflexivity.
  - intros ds Hne Hds. pose proof (parseSize_digits ds Hne Hds) as Hp.
    unfold parseSize in Hp. cbn [skipn] in Hp.
    pose proof (decimal_value_nonneg ds Hds) as Hv.
    split; [|split].
    + intros ->. cbn [reply_value]. unfold parseInt. rewrite Hp. reflexivity.
    + intros ->. cbn [reply_value]. unfold parseInt.
      rewrite (decode_minus_digits ds Hds).
      rewrite (decode_digits _ Hds) in Hp.
      destruct ds as [|d ds']; [congruence|].
      simpl in Hds. apply andb_prop in Hds as [Hd Hds'].
      rewrite (parse_integer_neg_digits d ds' Hd Hds'), Hp. reflexivity.
    + intros Hb. split; apply to_number_exact; lia.
Qed.

Lemma readReply_integer_frame_witness :
  forallb (fun c => negb (c =? 13)) (ascii_bytes "-42") = true /\
  fst (readReply [ascii_bytes ":-4"; ascii_bytes "2" ++ CRLF]) =
    Ok (IntegerReply (ascii_bytes "-42")) /\
  reply_value (IntegerReply (ascii_bytes "-42")) = RNum (Finite (-42)) /\
  reply_value (IntegerReply (ascii_bytes "9007199254740993")) = RNum (Finite 9007199254740992).
Proof.
  destruct (readReply_integer_frame [ascii_bytes ":-4"; ascii_bytes "2" ++ CRLF]
              (ascii_bytes "-42") [] eq_refl eq_refl) as [H1 H2].
  destruct (H2 (ascii_bytes "42") ltac:(discriminate) eq_refl) as [_ [Hneg Hex]].
  split; [reflexivity | split; [exact H1 | split]].
  - assert (Hb : decimal_value (ascii_bytes "42") <= 2 ^ 53)
      by (apply Z.leb_le; vm_compute; reflexivity).
    rewrite (Hneg eq_refl), (proj2 (Hex Hb)). reflexivity.
  - destruct (readReply_integer_frame [ascii_bytes ":9007199254740993" ++ CRLF]
                (ascii_bytes "9007199254740993") [] eq_refl eq_refl) as [_ H3].
    rewrite (proj1 (H3 (ascii_bytes "9007199254740993") ltac:(discriminate) eq_refl) eq_refl).
    vm_compute. reflexivity.
Defined.

(** A simple-string frame [+<line>] CRLF decodes to a [SimpleStringReply]
    holding the line after the plus sign, however the stream splits it. *)
Theorem readReply_simple_frame :
  forall chunks s rest,
    forallb (fun c => negb (c =? 13)) s = true ->
    concat chunks = 43 :: s ++ CRLF ++ rest ->
    fst (readReply chunks) = Ok (SimpleStringReply s).
Proof.
  intros chunks s rest Hs Hx. unfold CRLF in Hx.
  destruct (peek_code chunks _ _ Hx) as [sb1 [Ep Hc1]].
  rewrite Hx in Hc1.
  destruct (readLine_nocr sb1 (43 :: s) rest (no_cr_cons 43 s ltac:(lia) Hs) Hc1)
    as [sb2 [H2 _]].
  rewrite readReply_fst. unfold readReply_sb. rewrite (bind_ok _ _ _ _ _ Ep).
  cbn -[readLine readSimpleStringReplyBody]. unfold bind.
  rewrite (readSimpleStringReplyBody_line _ _ _ H2). reflexivity.
Qed.

Lemma readReply_simple_frame_witness :
  forallb (fun c => negb (c =? 13)) (ascii_bytes "OK") = true /\
  fst (readReply [ascii_bytes "+O"; ascii_bytes "K" ++ CRLF ++ ascii_bytes ":1"]) =
    Ok (SimpleStringReply (ascii_bytes "OK")).
Proof.
  split; [reflexivity|].
  exact (readReply_simple_frame [ascii_bytes "+O"; ascii_bytes "K" ++ CRLF ++ ascii_bytes ":1"]
           (ascii_bytes "OK") (ascii_bytes ":1") eq_refl eq_refl).
Defined.

(** A stream that ends before any byte makes [readReply] throw [EOFError];
    a frame whose first byte is none of [+ - : $ *] makes it throw
    [InvalidStateError]. *)
Theorem readReply_eof_and_unknown_code :
  (forall chunks, concat chunks = [] -> fst (readReply chunks) = Err EOFError) /\
  (forall chunks c x, concat chunks = c :: x ->
     ~ In c [SimpleStringCode; ErrorReplyCode; IntegerReplyCode; BulkReplyCode;
             ArrayReplyCode] ->
     fst (readReply chunks) = Err InvalidStateError).
Proof.
  split.
  - intros chunks Hx. rewrite readReply_fst. unfold readReply_sb.
    destruct (peek_first (mkSB [] chunks)) as [Hp _].
    destruct (peek 1 (mkSB [] chunks)) as [r1 sb1] eqn:Ep.
    unfold content in Hp. simpl in Hp. rewrite Hx in Hp. subst r1.
    unfold bind. rewrite Ep. reflexivity.
  - intros chunks c x Hx Hc.
    destruct (peek_code chunks _ _ Hx) as [sb1 [Ep _]].
    rewrite readReply_fst. unfold readReply_sb. rewrite (bind_ok _ _ _ _ _ Ep).
    unfold SimpleStringCode, ErrorReplyCode, IntegerReplyCode, BulkReplyCode,
      ArrayReplyCode in Hc.
    cbn [line_head nth].
    destruct (c =? 45) eqn:E1; [apply Z.eqb_eq in E1; subst; simpl in Hc; tauto|].
    destruct (c =? 58) eqn:E2; [apply Z.eqb_eq in E2; subst; simpl in Hc; tauto|].
    destruct (c =? 43) eqn:E3; [apply Z.eqb_eq in E3; subst; simpl in Hc; tauto|].
    destruct (c =? 36) eqn:E4; [apply Z.eqb_eq in E4; subst; simpl in Hc; tauto|].
    destruct (c =? 42) eqn:E5; [apply Z.eqb_eq in E5; subst; simpl in Hc; tauto|].
    unfold ErrorReplyCode, IntegerReplyCode, SimpleStringCode, BulkReplyCode,
      ArrayReplyCode.
    rewrite E1. unfold bind, ret. rewrite E2, E3, E4, E5. reflexivity.
Qed.

Lemma readReply_eof_and_unknown_code_witness :
  fst (readReply [[]; []]) = Err EOFError /\
  fst (readReply [ascii_bytes "!x"]) = Err InvalidStateError.
Proof.
  split.
  - exact (proj1 readReply_eof_and_unknown_code [[]; []] eq_refl).
  - apply (proj2 readReply_eof_and_unknown_code [ascii_bytes "!x"] 33 [120] eq_refl).
    simpl. intros H. repeat destruct H as [H|H]; try discriminate H. exact H.
Defined.

(** ** Arrays of bulk strings *)

Lemma bulk_frame_shape :
  forall b r,
    bulk_frame b ++ r =
    36 :: show_Z (Z.of_nat (length b)) ++ 13 :: 10 :: b ++ 13 :: 10 :: r.
Proof.
  intros b r. unfold bulk_frame, CRLF.
  destruct (encode_show_size (Z.of_nat (length b)) ltac:(lia)) as [He _].
  rewrite He. change (ascii_bytes "$") with [36].
  rewrite <- !app_assoc. reflexivity.
Qed.

Lemma readBulkReplyBody_frame :
  forall sb b r, content sb = bulk_frame b ++ r ->
    exists sb', readBulkReplyBody sb = (Ok (Some b), sb') /\ content sb' = r.
Proof.
  intros sb b r Hc. rewrite bulk_frame_shape in Hc.
  destruct (encode_show_size (Z.of_nat (length b)) ltac:(lia)) as [_ [Hne [Hd Hv]]].
  destruct (readLine_header sb _ _ Hd Hc) as [sb1 [H1 Hc1]].
  unfold readBulkReplyBody. rewrite (bind_ok _ _ _ _ _ H1).
  replace (negb (line_head (36 :: show_Z (Z.of_nat (length b))) =? BulkReplyCode))
    with false by reflexivity.
  cbv zeta. rewrite (parseSize_digits _ Hne Hd), Hv.
  replace (Z.of_nat (length b) <? 0) with false by (symmetry; apply Z.ltb_ge; lia).
  destruct (readBytes_ok (Z.of_nat (length b)) sb1 b) as [sb2 [H2 Hc2]];
    [lia | lia | rewrite Hc1, skipn_app, skipn_all, Nat.sub_diag; reflexivity |].
  rewrite (bind_ok _ _ _ _ _ H2).
  rewrite Hc1, skipn_app, skipn_all, Nat.sub_diag in Hc2. simpl in Hc2.
  destruct (readBytes_ok 2 sb2 [13; 10]) as [sb3 [H3 Hc3]];
    [lia | reflexivity | rewrite Hc2; reflexivity |].
  rewrite (bind_ok _ _ _ _ _ H3). exists sb3. split; [reflexivity|].
  rewrite Hc3, Hc2. reflexivity.
Qed.

Lemma flat_map_bulk_frame_length :
  forall bs, (length bs <= length (flat_map bulk_frame bs))%nat.
Proof.
  induction bs as [|b bs IH]; [simpl; lia|].
  cbn [flat_map]. rewrite length_app.
  rewrite <- (app_nil_r (bulk_frame b)), bulk_frame_shape. cbn [length]. lia.
Qed.

(** The element loop of [readArrayReplyBody], given how one step unfolds
    and how one element is read. *)
Lemma array_loop_bulks :
  forall (L : nat -> Z -> M (list Raw)) (E : M Raw),
    (forall g k, L (S g) k =
       if k <=? 0 then ret []
       else bind E (fun x => bind (L g (k - 1)) (fun xs => ret (x :: xs)))) ->
    (forall sb b r, content sb = bulk_frame b ++ r ->
       exists sb', E sb = (Ok (RStr (decode b)), sb') /\ content sb' = r) ->
    forall bs g sb r, (length bs < g)%nat ->
      content sb = flat_map bulk_frame bs ++ r ->
      exists sb', L g (Z.of_nat (length bs)) sb =
                    (Ok (map (fun b => RStr (decode b)) bs), sb') /\
                  content sb' = r.
Proof.
  intros L E HL HE. induction bs as [|b bs IH]; intros g sb r Hg Hc;
    (destruct g as [|g]; [cbn [length] in Hg; lia|]); rewrite HL.
  - exists sb. split; [reflexivity | exact Hc].
  - replace (Z.of_nat (length (b :: bs)) <=? 0) with false
      by (symmetry; apply Z.leb_gt; cbn [length]; lia).
    cbn [flat_map] in Hc. rewrite <- app_assoc in Hc.
    destruct (HE sb b _ Hc) as [sb1 [H1 Hc1]].
    rewrite (bind_ok _ _ _ _ _ H1).
    replace (Z.of_nat (length (b :: bs)) - 1) with (Z.of_nat (length bs))
      by (cbn [length]; lia).
    destruct (IH g sb1 r ltac:(cbn [length] in Hg; lia) Hc1) as [sb2 [H2 Hc2]].
    rewrite (bind_ok _ _ _ _ _ H2). exists sb2. split; [reflexivity | exact Hc2].
Qed.

Lemma readArrayReplyBody_bulks :
  forall f sb bs r,
    (length bs < S f)%nat -> Z.of_nat (length bs) < 4294967296 ->
    content sb = 42 :: show_Z (Z.of_nat (length bs)) ++ 13 :: 10 :: flat_map bulk_frame bs ++ r ->
    exists sb', readArrayReplyBody (S f) sb =
                  (Ok (Some (map (fun b => RStr (decode b)) bs)), sb') /\
                content sb' = r.
Proof.
  intros f sb bs r Hf Hn Hc.
  destruct (encode_show_size (Z.of_nat (length bs)) ltac:(lia)) as [_ [Hne [Hd Hv]]].
  destruct (readLine_nocr sb (42 :: show_Z (Z.of_nat (length bs))) _
              (no_cr_cons 42 _ ltac:(lia) (digits_no_cr _ Hd)) Hc) as [sb1 [H1 Hc1]].
  cbn [readArrayReplyBody].
  rewrite (bind_ok _ _ _ _ _ H1).
  change (parseSize (42 :: show_Z (Z.of_nat (length bs))))
    with (parseSize (36 :: show_Z (Z.of_nat (length bs)))).
  rewrite (parseSize_digits _ Hne Hd), Hv.
  replace (Z.of_nat (length bs) =? -1) with false by (symmetry; apply Z.eqb_neq; lia).
  replace ((Z.of_nat (length bs) <? 0) || (4294967296 <=? Z.of_nat (length bs))) with false
    by (symmetry; apply orb_false_iff; split; [apply Z.ltb_ge | apply Z.leb_gt]; lia).
  match goal with
  | |- context [ bind ?E (fun x => bind (?L f _) (fun xs => ret (x :: xs))) ] =>
      assert (HL : forall g k, L (S g) k =
        if k <=? 0 then ret []
        else bind E (fun x => bind (L g (k - 1)) (fun xs => ret (x :: xs))))
        by (intros; reflexivity);
      assert (HE : forall sb b r, content sb = bulk_frame b ++ r ->
        exists sb', E sb = (Ok (RStr (decode b)), sb') /\ content sb' = r);
      [| destruct (array_loop_bulks L E HL HE bs (S f) sb1 r Hf Hc1) as [sb2 [H2 Hc2]] ]
  end.
  - intros sb' b r' Hc'.
    destruct (peek_first sb') as [Hp Hpc].
    destruct (peek 1 sb') as [p sb2] eqn:Ep. simpl in Hp, Hpc.
    rewrite Hc', bulk_frame_shape in Hp. subst p.
    rewrite (bind_ok _ _ _ _ _ Ep).
    rewrite Hc' in Hpc.
    destruct (readBulkReplyBody_frame sb2 b r' Hpc) as [sb3 [H3 Hc3]].
    cbn -[readBulkReplyBody readSimpleStringReplyBody readIntegerReplyBody readArrayReplyBody].
    unfold bind. rewrite H3. exists sb3. split; [reflexivity | exact Hc3].
  - exists sb2. split; [|exact Hc2].
    exact (bind_ok _ (fun xs => ret (Some xs)) _ _ _ H2).
Qed.

(** An array frame [*<n>] CRLF followed by [n] bulk frames, as
    [_writeCommand] writes them, decodes to an [ArrayReply] of the [n]
    decoded strings, in order, however the stream splits it. *)
Theorem readReply_array_of_bulks :
  forall chunks bs rest,
    Z.of_nat (length bs) < 4294967296 ->
    concat chunks =
      42 :: show_Z (Z.of_nat (length bs)) ++ CRLF ++ flat_map bulk_frame bs ++ rest ->
    fst (readReply chunks) = Ok (ArrayReply (Some (map (fun b => RStr (decode b)) bs))).
Proof.
  intros chunks bs rest Hn Hx. unfold CRLF in Hx.
  destruct (peek_code chunks _ _ Hx) as [sb1 [Ep Hc1]].
  rewrite Hx in Hc1.
  assert (Hf : (length bs < S (length (concat chunks)))%nat).
  { pose proof (flat_map_bulk_frame_length bs). rewrite Hx. cbn [length].
    repeat (rewrite length_app; cbn [length]). lia. }
  destruct (readArrayReplyBody_bulks _ sb1 bs rest Hf Hn Hc1) as [sb2 [H2 _]].
  rewrite readReply_fst. unfold readReply_sb. rewrite (bind_ok _ _ _ _ _ Ep).
  cbn -[readLine readArrayReplyBody]. unfold bind. rewrite H2. reflexivity.
Qed.

Lemma readReply_array_of_bulks_witness :
  let bs := [ascii_bytes "a"; []; ascii_bytes "xyz"] in
  Z.of_nat (length bs) < 4294967296 /\
  fst (readReply [ascii_bytes "*3" ++ CRLF ++ ascii_bytes "$1"; CRLF ++ ascii_bytes "a" ++ CRLF;
                  ascii_bytes "$0" ++ CRLF ++ CRLF ++ ascii_bytes "$3" ++ CRLF ++ ascii_bytes "xyz";
                  CRLF]) =
    Ok (ArrayReply (Some [RStr (ascii_bytes "a"); RStr []; RStr (ascii_bytes "xyz")])).
Proof.
  intro bs. split; [simpl; lia|].
  exact (readReply_array_of_bulks
           [ascii_bytes "*3" ++ CRLF ++ ascii_bytes "$1"; CRLF ++ ascii_bytes "a" ++ CRLF;
            ascii_bytes "$0" ++ CRLF ++ CRLF ++ ascii_bytes "$3" ++ CRLF ++ ascii_bytes "xyz";
            CRLF] bs [] ltac:(simpl; lia) eq_refl).
Defined.

Lemma parseSize_neg_digits :
  forall c ds, ds <> [] -> forallb is_digit ds = true ->
    parseSize (c :: 45 :: ds) = Some (- decimal_value ds).
Proof.
  intros c [|d ds] Hne H; [congruence|].
  unfold parseSize. cbn [skipn]. rewrite (decode_minus_digits _ H).
  pose proof (parseSize_digits (d :: ds) Hne H) as Hp.
  unfold parseSize in Hp. cbn [skipn] in Hp. rewrite (decode_digits _ H) in Hp.
  simpl in H. apply andb_prop in H as [Hd Hds].
  rewrite (parse_integer_neg_digits d ds Hd Hds), Hp. reflexivity.
Qed.

(** An array frame whose count is [-1] is the null array and one whose
    count is [-0] the empty array; any other negative count makes
    [readReply] throw a [RangeError] (from [new Array(argCount)]), however
    the stream splits the frame. *)
Theorem readReply_array_negative_count :
  forall chunks ds rest,
    ds <> [] -> forallb is_digit ds = true ->
    concat chunks = 42 :: 45 :: ds ++ CRLF ++ rest ->
    fst (readReply chunks) =
      if decimal_value ds =? 1 then Ok (ArrayReply None)
      else if decimal_value ds =? 0 then Ok (ArrayReply (Some []))
      else Err RangeError.
Proof.
  intros chunks ds rest Hne Hds Hx. unfold CRLF in Hx.
  destruct (peek_code chunks _ _ Hx) as [sb1 [Ep Hc1]].
  rewrite Hx in Hc1.
  destruct (readLine_nocr sb1 (42 :: 45 :: ds) rest
              (no_cr_cons 42 _ ltac:(lia) (no_cr_cons 45 _ ltac:(lia) (digits_no_cr _ Hds)))
              Hc1) as [sb2 [H2 _]].
  rewrite readReply_fst. unfold readReply_sb. rewrite (bind_ok _ _ _ _ _ Ep).
  cbn -[readLine readArrayReplyBody]. unfold bind at 1.
  cbn [readArrayReplyBody]. rewrite (bind_ok _ _ _ _ _ H2).
  rewrite (parseSize_neg_digits _ _ Hne Hds).
  pose proof (decimal_value_nonneg ds Hds) as Hv.
  destruct (decimal_value ds =? 1) eqn:E1.
  - apply Z.eqb_eq in E1. rewrite E1. reflexivity.
  - apply Z.eqb_neq in E1.
    replace (- decimal_value ds =? -1) with false by (symmetry; apply Z.eqb_neq; lia).
    destruct (decimal_value ds =? 0) eqn:E0.
    + apply Z.eqb_eq in E0. rewrite E0. reflexivity.
    + apply Z.eqb_neq in E0.
      replace ((- decimal_value ds <? 0) || (4294967296 <=? - decimal_value ds))
        with true by (symmetry; apply orb_true_iff; left; apply Z.ltb_lt; lia).
      reflexivity.
Qed.

Lemma readReply_array_negative_count_witness :
  [49] <> [] /\ forallb is_digit [49] = true /\
  fst (readReply [ascii_bytes "*-"; ascii_bytes "1" ++ CRLF]) = Ok (ArrayReply None) /\
  fst (readReply [ascii_bytes "*-2" ++ CRLF]) = Err RangeError.
Proof.
  split; [discriminate | split; [reflexivity | split]].
  - exact (readReply_array_negative_count [ascii_bytes "*-"; ascii_bytes "1" ++ CRLF]
             [49] [] ltac:(discriminate) eq_refl eq_refl).
  - exact (readReply_array_negative_count [ascii_bytes "*-2" ++ CRLF]
             [50] [] ltac:(discriminate) eq_refl eq_refl).
Defined.

(** ** Retries of [connect()] *)

(** The events of [k] failed attempts: each dial is followed by the
    backoff delay of the incremented retry counter. *)
Lemma connect_loop_failures :
  forall k fuel attempt o st dial,
    (k < fuel)%nat ->
    (k <= Z.to_nat (st.(c_maxRetryCount) - st.(retryCount)))%nat ->
    (forall i, (i < k)%nat ->
       exists e, dial (attempt + i)%nat = DialFail e /\ e <> AuthenticationError) ->
    connect_loop fuel attempt o st dial =
      match connect_loop (fuel - k) (attempt + k) o
              (with_retry st (st.(retryCount) + Z.of_nat k)) dial with
      | (r, st', ev) =>
          (r, st', flat_map (fun i => [Dial; Delay (st.(retryCount) + Z.of_nat (S i))])
                     (seq 0 k) ++ ev)
      end.
Proof.
  induction k as [|k IH]; intros fuel attempt o st dial Hf Hk Hd.
  - rewrite Nat.sub_0_r, Nat.add_0_r, Z.add_0_r.
    destruct st as [c0 c1 rc m]. unfold with_retry. cbn [c_closed c_connected retryCount c_maxRetryCount].
    destruct (connect_loop fuel attempt o _ dial) as [[r st'] ev]. reflexivity.
  - destruct fuel as [|fuel]; [lia|].
    destruct (Hd 0%nat ltac:(lia)) as [e [He Hne]]. rewrite Nat.add_0_r in He.
    cbn [connect_loop]. rewrite He.
    assert (Hm : (st.(c_maxRetryCount) <=? st.(retryCount)) = false)
      by (apply Z.leb_gt; lia).
    assert (Hrec := IH fuel (S attempt) o
                      (with_retry st (st.(retryCount) + 1)) dial ltac:(lia)
                      ltac:(cbn; lia)).
    rewrite Hrec.
    2:{ intros i Hi. destruct (Hd (S i) ltac:(lia)) as [e' [He' Hne']].
        exists e'. split; [|exact Hne']. rewrite <- He'. f_equal. lia. }
    replace (fuel - k)%nat with (S fuel - S k)%nat by lia.
    replace (S attempt + k)%nat with (attempt + S k)%nat by lia.
    replace (with_retry (with_retry st (retryCount st + 1))
               (retryCount (with_retry st (retryCount st + 1)) + Z.of_nat k))
      with (with_retry st (retryCount st + Z.of_nat (S k)))
      by (unfold with_retry; cbn; f_equal; lia).
    destruct (connect_loop (S fuel - S k) (attempt + S k) o _ dial) as [[r st'] ev].
    assert (Ht : [Dial] ++ Delay (retryCount st + 1) ::
        flat_map (fun i => [Dial; Delay (retryCount st + 1 + Z.of_nat (S i))]) (seq 0 k) ++ ev =
      flat_map (fun i => [Dial; Delay (retryCount st + Z.of_nat (S i))]) (seq 0 (S k)) ++ ev).
    { cbn [seq flat_map]. rewrite <- seq_shift, <- flat_map_map_comp.
      replace (retryCount st + Z.of_nat 1) with (retryCount st + 1) by lia.
      assert (Hfg : forall i,
        [Dial; Delay (retryCount st + 1 + Z.of_nat (S i))] =
        [Dial; Delay (retryCount st + Z.of_nat (S (S i)))])
        by (intros i; do 3 f_equal; lia).
      rewrite (flat_map_ext _ _ Hfg). reflexivity. }
    destruct e; try contradiction; rewrite Hm; cbn [retryCount with_retry]; rewrite Ht; reflexivity.
Qed.

(** When every dial fails, each with its own error but none with an
    [AuthenticationError], [connect()] dials [maxRetryCount - retryCount + 1]
    times, waits the backoff of each incremented retry counter between two
    dials, and then throws the error of the last dial, with the retry
    counter reset to 0 and the closed and connected flags as they were. *)
Theorem connect_retries_exhausted :
  forall o st dial (errs : nat -> RedisError),
    (forall i, errs i <> AuthenticationError) ->
    (forall i, dial i = DialFail (errs i)) ->
    connect o st dial =
      (Err (errs (Z.to_nat (st.(c_maxRetryCount) - st.(retryCount)))),
       mkConn st.(c_closed) st.(c_connected) 0 st.(c_maxRetryCount),
       flat_map (fun i => [Dial; Delay (st.(retryCount) + Z.of_nat (S i))])
         (seq 0 (Z.to_nat (st.(c_maxRetryCount) - st.(retryCount)))) ++ [Dial]).
Proof.
  intros o st dial errs Hne Hd. unfold connect.
  set (n := Z.to_nat (c_maxRetryCount st - retryCount st)).
  rewrite (connect_loop_failures n (S (S n)) 0 o st dial ltac:(lia) ltac:(lia)).
  2:{ intros i _. exists (errs (0 + i)%nat). split; [apply Hd | apply Hne]. }
  replace (S (S n) - n)%nat with 2%nat by lia.
  cbn [connect_loop]. rewrite Hd, Nat.add_0_l.
  assert (Hm : (c_maxRetryCount (with_retry st (retryCount st + Z.of_nat n)) <=?
                retryCount (with_retry st (retryCount st + Z.of_nat n))) = true).
  { cbn. apply Z.leb_le. unfold n. lia. }
  pose proof (Hne n) as Hn.
  destruct (errs n); try contradiction; rewrite Hm; reflexivity.
Qed.

(** When the first [k] dials fail with errors other than an
    [AuthenticationError], [k] being at most [maxRetryCount - retryCount],
    and the next one connects and completes the handshake, [connect()]
    succeeds: the connection is open and connected and the retry counter
    is back to 0. *)
Theorem connect_recovers :
  forall o st dial k rs ev,
    (k <= Z.to_nat (st.(c_maxRetryCount) - st.(retryCount)))%nat ->
    (forall i, (i < k)%nat -> exists e, dial i = DialFail e /\ e <> AuthenticationError) ->
    dial k = DialOk rs ->
    handshake o rs = (Ok tt, ev) ->
    connect o st dial =
      (Ok tt, mkConn false true 0 st.(c_maxRetryCount),
       flat_map (fun i => [Dial; Delay (st.(retryCount) + Z.of_nat (S i))]) (seq 0 k) ++
       Dial :: ev).
Proof.
  intros o st dial k rs ev Hk Hf Hd Hh. unfold connect.
  rewrite (connect_loop_failures k (S (S (Z.to_nat (c_maxRetryCount st - retryCount st))))
             0 o st dial ltac:(lia) Hk Hf).
  replace (S (S (Z.to_nat (c_maxRetryCount st - retryCount st))) - k)%nat
    with (S (S (Z.to_nat (c_maxRetryCount st - retryCount st)) - k))%nat by lia.
  cbn [connect_loop]. rewrite Nat.add_0_l, Hd, Hh. reflexivity.
Qed.

Lemma connect_retries_exhausted_witness :
  let o := mkOptions None None 0 None in
  let errs := fun i : nat =>
    if Nat.eqb i 2 then Transport ConnectionReset else Transport ConnectionRefused in
  let dial := fun i : nat => DialFail (errs i) in
  (forall i, errs i <> AuthenticationError) /\
  connect o (mkConn false false 0 2) dial =
    (Err (Transport ConnectionReset), mkConn false false 0 2,
     [Dial; Delay 1; Dial; Delay 2; Dial]).
Proof.
  intros o errs dial.
  assert (He : forall i, errs i <> AuthenticationError)
    by (intros i; unfold errs; destruct (Nat.eqb i 2); discriminate).
  split; [exact He|].
  exact (connect_retries_exhausted o (mkConn false false 0 2) dial errs He (fun _ => eq_refl)).
Defined.

Lemma connect_recovers_witness :
  let o := mkOptions None None 1 None in
  let dial := fun i : nat =>
    if Nat.ltb i 2 then DialFail (Transport ConnectionReset)
    else DialOk [Ok (SimpleStringReply (ascii_bytes "OK"))] in
  (2 <= Z.to_nat (10 - 3))%nat /\
  dial 2%nat = DialOk [Ok (SimpleStringReply (ascii_bytes "OK"))] /\
  handshake o [Ok (SimpleStringReply (ascii_bytes "OK"))] =
    (Ok tt, [Sent (ascii_bytes "SELECT") [VNum 1]]) /\
  connect o (mkConn true false 3 10) dial =
    (Ok tt, mkConn false true 0 10,
     [Dial; Delay 4; Dial; Delay 5; Dial; Sent (ascii_bytes "SELECT") [VNum 1]]).
Proof.
  intros o dial. split; [simpl; lia | split; [reflexivity | split; [reflexivity|]]].
  apply (connect_recovers o (mkConn true false 3 10) dial 2
           [Ok (SimpleStringReply (ascii_bytes "OK"))]); [simpl; lia | | reflexivity | reflexivity].
  intros i Hi. exists (Transport ConnectionReset). split; [|discriminate].
  unfold dial. replace (Nat.ltb i 2) with true by (symmetry; apply Nat.ltb_lt; exact Hi).
  reflexivity.
Defined.

(** ** The executor's queue never stalls *)

(** In every state the executor reaches, a dequeue is running exactly when
    commands are queued: a queued command is never left without a send in
    progress or a reconnect in progress for the head. *)
Theorem mux_busy_iff_queued :
  forall st, mux_reachable st ->
    (st.(queue) = [] <-> st.(isProcessing) = false) /\
    (st.(queue) = [] <-> st.(phase) = Idle).
Proof.
  intros st Hst. destruct (mux_inv_reachable st Hst) as [_ [Hph [Hpr _]]].
  rewrite Hpr. split; [|tauto].
  destruct (phase st); simpl; split; intro H; try reflexivity; try discriminate H.
  - apply Hph. reflexivity.
  - apply Hph in H. discriminate H.
  - apply Hph in H. discriminate H.
Qed.

Lemma mux_busy_iff_queued_witness :
  let st := snd (mux_exec (mux_init false 3) (mkQueued 1 (ascii_bytes "PING") [])) in
  mux_reachable st /\ st.(isProcessing) = true /\ st.(phase) = Sending.
Proof.
  intros st.
  assert (H : mux_reachable st) by (eapply reach_step; [apply reach_init | apply step_exec]).
  split; [exact H|].
  destruct (mux_busy_iff_queued st H) as [H1 H2]. split; reflexivity.
Defined.

(** Once a send is in progress, if every send succeeds, the queue drains
    without any other event: after as many replies as queued commands, the
    queue is empty, the executor is idle, and the callers are resolved in
    queue order, each with the reply read for its own command. *)
Theorem mux_drain :
  forall rs st,
    st.(phase) = Sending -> st.(queue) <> [] -> length rs = length st.(queue) ->
    let st' := fold_left (fun s r => mux_send_done s (Ok r)) rs st in
    st'.(queue) = [] /\ st'.(phase) = Idle /\ st'.(isProcessing) = false /\
    outcomes st'.(log) =
      outcomes st.(log) ++ combine (map qid st.(queue)) (map (@Ok RedisReply) rs).
Proof.
  induction rs as [|r rs IH]; intros [qu pr ph cl mr lg] Hph Hq Hl; simpl in *.
  - destruct qu; [contradiction | discriminate Hl].
  - subst ph. destruct qu as [|item rest]; [contradiction|].
    injection Hl as Hl.
    destruct rest as [|i2 r2].
    + destruct rs; [|discriminate Hl]. simpl.
      split; [reflexivity | split; [reflexivity | split; [reflexivity|]]].
      rewrite outcomes_app. reflexivity.
    + assert (E : mux_send_done (mkMux (item :: i2 :: r2) pr Sending cl mr lg) (Ok r) =
                  mkMux (i2 :: r2) true Sending cl mr
                    ((lg ++ [SendEnd (qid item); Resolved (qid item) r]) ++
                     [SendStart (qid i2)])) by reflexivity.
      rewrite E.
      destruct (IH (mkMux (i2 :: r2) true Sending cl mr
                      ((lg ++ [SendEnd (qid item); Resolved (qid item) r]) ++
                       [SendStart (qid i2)])) eq_refl ltac:(discriminate) Hl)
        as [H1 [H2 [H3 H4]]].
      split; [exact H1 | split; [exact H2 | split; [exact H3|]]].
      rewrite H4. cbn [log queue]. rewrite !outcomes_app, <- !app_assoc. reflexivity.
Qed.

Lemma mux_drain_witness :
  let q1 := mkQueued 1 (ascii_bytes "GET") [VStr (ascii_bytes "a")] in
  let q2 := mkQueued 2 (ascii_bytes "GET") [VStr (ascii_bytes "b")] in
  let st := snd (mux_exec (snd (mux_exec (mux_init false 3) q1)) q2) in
  let rs := [BulkReply (Some [49]); BulkReply None] in
  st.(phase) = Sending /\ st.(queue) <> [] /\ length rs = length st.(queue) /\
  outcomes (fold_left (fun s r => mux_send_done s (Ok r)) rs st).(log) =
    [(1%nat, Ok (BulkReply (Some [49]))); (2%nat, Ok (BulkReply None))].
Proof.
  intros q1 q2 st rs.
  split; [reflexivity | split; [discriminate | split; [reflexivity|]]].
  destruct (mux_drain rs st eq_refl ltac:(discriminate) eq_refl) as [_ [_ [_ H]]].
  exact H.
Defined.

(** ** Subscription bookkeeping *)

Lemma obj_set_in :
  forall m k c, In c (obj_set m k) <-> c = k \/ In c m.
Proof.
  intros m k c. unfold obj_set.
  destruct (in_dec (list_eq_dec Z.eq_dec) k m) as [Hk|Hk].
  - split; [tauto|]. intros [->|H]; assumption.
  - rewrite in_app_iff. simpl. intuition (subst; auto).
Qed.

Lemma fold_obj_set_in :
  forall ks m c, In c (fold_left obj_set ks m) <-> In c ks \/ In c m.
Proof.
  induction ks as [|k ks IH]; intros m c; simpl; [tauto|].
  rewrite IH, obj_set_in. intuition (subst; auto).
Qed.

Lemma obj_set_nodup : forall m k, NoDup m -> NoDup (obj_set m k).
Proof.
  intros m k H. unfold obj_set.
  destruct (in_dec (list_eq_dec Z.eq_dec) k m) as [Hk|Hk]; [exact H|].
  apply NoDup_app; [exact H | constructor; [intros []|constructor] |].
  intros x Hx [<-|[]]. contradiction.
Qed.

Lemma fold_obj_set_nodup :
  forall ks m, NoDup m -> NoDup (fold_left obj_set ks m).
Proof.
  induction ks as [|k ks IH]; intros m H; simpl; [exact H|].
  apply IH, obj_set_nodup, H.
Qed.

Lemma fold_obj_set_members :
  forall ks m, (forall k, In k ks -> In k m) -> fold_left obj_set ks m = m.
Proof.
  induction ks as [|k ks IH]; intros m H; simpl; [reflexivity|].
  unfold obj_set at 2.
  destruct (in_dec (list_eq_dec Z.eq_dec) k m) as [Hk|Hk].
  - apply IH. intros x Hx. apply H. right. exact Hx.
  - exfalso. apply Hk, H. left. reflexivity.
Qed.

Lemma obj_delete_in :
  forall m k c, In c (obj_delete m k) <-> In c m /\ c <> k.
Proof.
  intros m k c. unfold obj_delete. rewrite filter_In.
  destruct (list_eq_dec Z.eq_dec c k) as [->|Hne]; split; intros [H1 H2];
    try discriminate; try contradiction; tauto.
Qed.

Lemma fold_obj_delete_in :
  forall ks m c, In c (fold_left obj_delete ks m) <-> In c m /\ ~ In c ks.
Proof.
  induction ks as [|k ks IH]; intros m c; simpl; [tauto|].
  rewrite IH, obj_delete_in. split.
  - intros [[H1 H2] H3]. split; [exact H1|]. intros [->|H]; [apply H2; reflexivity | tauto].
  - intros [H1 H2]. split; [split; [exact H1|] | tauto]. intros ->. apply H2. left. reflexivity.
Qed.

Lemma fold_obj_delete_nodup :
  forall ks m, NoDup m -> NoDup (fold_left obj_delete ks m).
Proof.
  induction ks as [|k ks IH]; intros m H; simpl; [exact H|].
  apply IH. unfold obj_delete. apply NoDup_filter, H.
Qed.

Lemma insert_index_in :
  forall k l c, In c (insert_index k l) <-> c = k \/ In c l.
Proof.
  intros k l c. induction l as [|x r IH]; simpl; [intuition (subst; auto)|].
  destruct (decimal_value k <? decimal_value x); simpl; [intuition (subst; auto)|].
  rewrite IH. intuition (subst; auto).
Qed.

Lemma insert_index_length :
  forall k l, length (insert_index k l) = S (length l).
Proof.
  intros k l. induction l as [|x r IH]; simpl; [reflexivity|].
  destruct (decimal_value k <? decimal_value x); simpl; [reflexivity | rewrite IH; reflexivity].
Qed.

Lemma fold_insert_index_in :
  forall l c, In c (fold_right insert_index [] l) <-> In c l.
Proof.
  induction l as [|y l IH]; intros c; simpl; [tauto|].
  rewrite insert_index_in, IH. intuition (subst; auto).
Qed.

Lemma object_keys_in :
  forall m c, In c (object_keys m) <-> In c m.
Proof.
  intros m c. unfold object_keys. rewrite in_app_iff, filter_In.
  rewrite fold_insert_index_in, filter_In. destruct (is_array_index c); simpl; intuition congruence.
Qed.

Lemma object_keys_length :
  forall m, length (object_keys m) = length m.
Proof.
  intros m. unfold object_keys. rewrite length_app.
  assert (G : forall l, length (fold_right insert_index [] l) = length l).
  { induction l as [|x l IH]; simpl; [reflexivity|]. rewrite insert_index_length, IH. reflexivity. }
  rewrite G. induction m as [|x m IH]; simpl; [reflexivity|].
  destruct (is_array_index x); simpl; lia.
Qed.

(** [subscribe] records the channels it was given, in addition to those
    already recorded, once the executor has run [SUBSCRIBE]; [unsubscribe]
    forgets them once [UNSUBSCRIBE] has run.  A command the executor
    rejects leaves the record as it was.  The record never lists a channel
    twice, and the patterns are untouched. *)
Theorem subscription_channels_bookkeeping :
  forall {S} (exec : SendFn S) chans sub s,
    (let '(r, sub', _) := sub_subscribe exec chans sub s in
     match r with
     | Ok _ => (forall c, In c sub'.(channels) <-> In c chans \/ In c sub.(channels)) /\
               sub'.(patterns) = sub.(patterns) /\
               (NoDup sub.(channels) -> NoDup sub'.(channels))
     | Err _ => sub' = sub
     end) /\
    (let '(r, sub', _) := sub_unsubscribe exec chans sub s in
     match r with
     | Ok _ => (forall c, In c sub'.(channels) <-> In c sub.(channels) /\ ~ In c chans) /\
               sub'.(patterns) = sub.(patterns) /\
               (NoDup sub.(channels) -> NoDup sub'.(channels))
     | Err _ => sub' = sub
     end).
Proof.
  intros S exec chans sub s. unfold sub_subscribe, sub_unsubscribe.
  split.
  - destruct (exec (ascii_bytes "SUBSCRIBE") (map VStr chans) s) as [[rep|e] s1];
      [|reflexivity].
    split; [intros c; apply fold_obj_set_in | split; [reflexivity | apply fold_obj_set_nodup]].
  - destruct (exec (ascii_bytes "UNSUBSCRIBE") (map VStr chans) s) as [[rep|e] s1];
      [|reflexivity].
    split; [intros c; apply fold_obj_delete_in | split; [reflexivity | apply fold_obj_delete_nodup]].
Qed.

Lemma subscription_channels_bookkeeping_witness :
  let sub := mkSubscription [ascii_bytes "news"] [] in
  NoDup sub.(channels) /\
  sub_subscribe always_ok [ascii_bytes "sport"; ascii_bytes "news"] sub tt =
    (Ok tt, mkSubscription [ascii_bytes "news"; ascii_bytes "sport"] [], tt) /\
  NoDup [ascii_bytes "news"; ascii_bytes "sport"] /\
  In (ascii_bytes "sport") [ascii_bytes "news"; ascii_bytes "sport"].
Proof.
  intros sub.
  assert (Hn : NoDup sub.(channels)) by (repeat constructor; intros []).
  destruct (subscription_channels_bookkeeping always_ok
              [ascii_bytes "sport"; ascii_bytes "news"] sub tt) as [H1 _].
  assert (E : sub_subscribe always_ok [ascii_bytes "sport"; ascii_bytes "news"] sub tt =
    (Ok tt, mkSubscription [ascii_bytes "news"; ascii_bytes "sport"] [], tt)) by reflexivity.
  rewrite E in H1. destruct H1 as [Hin [_ Hnd]].
  split; [exact Hn | split; [exact E | split; [exact (Hnd Hn)|]]].
  apply (proj2 (Hin (ascii_bytes "sport"))). left. left. reflexivity.
Defined.

(** The same for patterns: [psubscribe] records them once [PSUBSCRIBE]
    has run, [punsubscribe] forgets them once [PUNSUBSCRIBE] has run, a
    rejected command changes nothing, and the channels are untouched. *)
Theorem subscription_patterns_bookkeeping :
  forall {S} (exec : SendFn S) pats sub s,
    (let '(r, sub', _) := sub_psubscribe exec pats sub s in
     match r with
     | Ok _ => (forall p, In p sub'.(patterns) <-> In p pats \/ In p sub.(patterns)) /\
               sub'.(channels) = sub.(channels) /\
               (NoDup sub.(patterns) -> NoDup sub'.(patterns))
     | Err _ => sub' = sub
     end) /\
    (let '(r, sub', _) := sub_punsubscribe exec pats sub s in
     match r with
     | Ok _ => (forall p, In p sub'.(patterns) <-> In p sub.(patterns) /\ ~ In p pats) /\
               sub'.(channels) = sub.(channels) /\
               (NoDup sub.(patterns) -> NoDup sub'.(patterns))
     | Err _ => sub' = sub
     end).
Proof.
  intros S exec pats sub s. unfold sub_psubscribe, sub_punsubscribe.
  split.
  - destruct (exec (ascii_bytes "PSUBSCRIBE") (map VStr pats) s) as [[rep|e] s1];
      [|reflexivity].
    split; [intros p; apply fold_obj_set_in | split; [reflexivity | apply fold_obj_set_nodup]].
  - destruct (exec (ascii_bytes "PUNSUBSCRIBE") (map VStr pats) s) as [[rep|e] s1];
      [|reflexivity].
    split; [intros p; apply fold_obj_delete_in | split; [reflexivity | apply fold_obj_delete_nodup]].
Qed.

Lemma subscription_patterns_bookkeeping_witness :
  let sub := mkSubscription [] [ascii_bytes "a*"; ascii_bytes "b*"] in
  NoDup sub.(patterns) /\
  sub_punsubscribe always_ok [ascii_bytes "a*"] sub tt =
    (Ok tt, mkSubscription [] [ascii_bytes "b*"], tt) /\
  ~ In (ascii_bytes "a*") [ascii_bytes "b*"].
Proof.
  intros sub.
  assert (Hn : NoDup sub.(patterns)).
  { constructor; [simpl; intros [H|[]]; discriminate H | repeat constructor; intros []]. }
  destruct (subscription_patterns_bookkeeping always_ok [ascii_bytes "a*"] sub tt) as [_ H2].
  assert (E : sub_punsubscribe always_ok [ascii_bytes "a*"] sub tt =
    (Ok tt, mkSubscription [] [ascii_bytes "b*"], tt)) by reflexivity.
  rewrite E in H2. destruct H2 as [Hin _].
  split; [exact Hn | split; [exact E|]].
  intros H. apply (proj1 (Hin (ascii_bytes "a*")) H). left. reflexivity.
Defined.

Lemma object_keys_nodup : forall m, NoDup m -> NoDup (object_keys m).
Proof.
  intros m H. unfold object_keys.
  assert (G : forall l, NoDup l -> NoDup (fold_right insert_index [] l)).
  { induction l as [|x l IH]; intros Hl; simpl; [constructor|].
    inversion Hl as [|? ? Hx Hl']; subst.
    specialize (IH Hl'). clear Hl.
    assert (Gi : forall r, NoDup r -> ~ In x r -> NoDup (insert_index x r)).
    { induction r as [|y r IHr]; intros Hr Hxr; simpl; [repeat constructor; intros []|].
      inversion Hr as [|? ? Hy Hr']; subst.
      destruct (decimal_value x <? decimal_value y); [constructor; assumption|].
      constructor.
      - rewrite insert_index_in. intros [->|Hin]; [apply Hxr; left; reflexivity | tauto].
      - apply IHr; [exact Hr' | intros Hin; apply Hxr; right; exact Hin]. }
    apply Gi; [exact IH|].
    rewrite fold_insert_index_in. exact Hx. }
  apply NoDup_app.
  - apply G, NoDup_filter, H.
  - apply NoDup_filter, H.
  - intros x Hx Hy.
    rewrite fold_insert_index_in, filter_In in Hx. rewrite filter_In in Hy.
    destruct Hx as [_ Hx]. destruct Hy as [_ Hy]. rewrite Hx in Hy. discriminate Hy.
Qed.

(** After a reconnect, when the server accepts the commands, the iterator
    sends [SUBSCRIBE] with every recorded channel, each once, if there is
    one, and then [PSUBSCRIBE] with every recorded pattern, each once, if
    there is one; nothing else is sent and the record is unchanged. *)
Theorem resubscribe_sends_recorded :
  forall {S} (exec : SendFn S) sub s,
    (forall c a s, exists rep s', exec c a s = (Ok rep, s')) ->
    exists s',
      resubscribe (recording exec) sub ([], s) =
        (Ok tt, sub,
         ((if Nat.ltb 0 (length sub.(channels))
           then [(ascii_bytes "SUBSCRIBE", map VStr (object_keys sub.(channels)))]
           else []) ++
          (if Nat.ltb 0 (length sub.(patterns))
           then [(ascii_bytes "PSUBSCRIBE", map VStr (object_keys sub.(patterns)))]
           else []),
          s')) /\
      (forall c, In c (object_keys sub.(channels)) <-> In c sub.(channels)) /\
      (forall p, In p (object_keys sub.(patterns)) <-> In p sub.(patterns)) /\
      (NoDup sub.(channels) -> NoDup (object_keys sub.(channels))).
Proof.
  intros S exec [ch pt] s Hok. cbn [channels patterns].
  assert (Hch : fold_left obj_set (object_keys ch) ch = ch)
    by (apply fold_obj_set_members; intros k Hk; apply object_keys_in, Hk).
  assert (Hpt : fold_left obj_set (object_keys pt) pt = pt)
    by (apply fold_obj_set_members; intros k Hk; apply object_keys_in, Hk).
  assert (Hps : forall sent s0,
    exists s', (if Nat.ltb 0 (length (object_keys pt))
                then sub_psubscribe (recording exec) (object_keys pt) (mkSubscription ch pt) (sent, s0)
                else (Ok tt, mkSubscription ch pt, (sent, s0))) =
               (Ok tt, mkSubscription ch pt,
                (sent ++ (if Nat.ltb 0 (length pt)
                          then [(ascii_bytes "PSUBSCRIBE", map VStr (object_keys pt))] else []),
                 s'))).
  { intros sent s0. rewrite object_keys_length.
    destruct (Nat.ltb 0 (length pt)).
    - destruct (Hok (ascii_bytes "PSUBSCRIBE") (map VStr (object_keys pt)) s0) as [rep [s1 E]].
      exists s1. unfold sub_psubscribe. rewrite (recording_eq exec _ _ sent s0 _ s1 E).
      cbn [channels patterns]. rewrite Hpt. reflexivity.
    - exists s0. rewrite app_nil_r. reflexivity. }
  unfold resubscribe. cbn [channels patterns]. rewrite object_keys_length.
  destruct (Nat.ltb 0 (length ch)).
  - destruct (Hok (ascii_bytes "SUBSCRIBE") (map VStr (object_keys ch)) s) as [rep [s1 E]].
    unfold sub_subscribe at 1. rewrite (recording_eq exec _ _ [] s _ s1 E).
    cbn [channels patterns]. rewrite Hch.
    destruct (Hps ([] ++ [(ascii_bytes "SUBSCRIBE", map VStr (object_keys ch))]) s1)
      as [s' Hs']. exists s'. cbn [patterns].
    split; [exact Hs'|].
    split; [intros c; apply object_keys_in | split; [intros p; apply object_keys_in|]].
    apply object_keys_nodup.
  - destruct (Hps [] s) as [s' Hs']. exists s'. cbn [patterns].
    split; [exact Hs'|].
    split; [intros c; apply object_keys_in | split; [intros p; apply object_keys_in|]].
    apply object_keys_nodup.
Qed.

Lemma resubscribe_sends_recorded_witness :
  (forall c a s, exists rep s', always_ok c a s = (Ok rep, s')) /\
  exists s',
    resubscribe (recording always_ok)
      (mkSubscription [ascii_bytes "b"; ascii_bytes "7"; ascii_bytes "a"] [ascii_bytes "n*"])
      ([], tt) =
    (Ok tt, mkSubscription [ascii_bytes "b"; ascii_bytes "7"; ascii_bytes "a"] [ascii_bytes "n*"],
     ([(ascii_bytes "SUBSCRIBE", map VStr [ascii_bytes "7"; ascii_bytes "b"; ascii_bytes "a"]);
       (ascii_bytes "PSUBSCRIBE", map VStr [ascii_bytes "n*"])], s')).
Proof.
  assert (Hok : forall c a s, exists rep s', always_ok c a s = (Ok rep, s'))
    by (intros; eexists; eexists; reflexivity).
  split; [exact Hok|].
  destruct (resubscribe_sends_recorded always_ok
              (mkSubscription [ascii_bytes "b"; ascii_bytes "7"; ascii_bytes "a"] [ascii_bytes "n*"])
              tt Hok) as [s' [E _]].
  exists s'. rewrite E. reflexivity.
Defined.

(** ** Arrays of any elements *)

Lemma elem_frame_arr :
  forall l, elem_frame (EArr (Some l)) =
    42 :: show_Z (Z.of_nat (length l)) ++ CRLF ++ flat_map elem_frame l.
Proof. reflexivity. Qed.

Lemma elem_frame_nonempty : forall e, elem_frame e <> [].
Proof.
  intros [s|s|[b|]|[l|]]; discriminate.
Qed.

Lemma flat_map_elem_frame_length :
  forall l, (length l <= length (flat_map elem_frame l))%nat.
Proof.
  induction l as [|e l IH]; [simpl; lia|].
  cbn [flat_map]. rewrite length_app. cbn [length].
  destruct (elem_frame e) eqn:E; [contradiction (elem_frame_nonempty e E)|].
  cbn [length]. lia.
Qed.

Lemma readBulkReplyBody_null_frame :
  forall sb r, content sb = [36; 45; 49] ++ 13 :: 10 :: r ->
    exists sb', readBulkReplyBody sb = (Ok None, sb') /\ content sb' = r.
Proof.
  intros sb r Hc.
  destruct (readLine_nocr sb [36; 45; 49] r eq_refl Hc) as [sb1 [H1 Hc1]].
  unfold readBulkReplyBody. rewrite (bind_ok _ _ _ _ _ H1).
  exists sb1. split; [reflexivity | exact Hc1].
Qed.

Lemma readArrayReplyBody_null_frame :
  forall f sb r, (0 < f)%nat -> content sb = [42; 45; 49] ++ 13 :: 10 :: r ->
    exists sb', readArrayReplyBody f sb = (Ok None, sb') /\ content sb' = r.
Proof.
  intros [|f] sb r Hf Hc; [lia|].
  destruct (readLine_nocr sb [42; 45; 49] r eq_refl Hc) as [sb1 [H1 Hc1]].
  cbn [readArrayReplyBody]. rewrite (bind_ok _ _ _ _ _ H1).
  exists sb1. split; [reflexivity | exact Hc1].
Qed.

(** The element loop of [readArrayReplyBody] over any well-formed elements,
    given how one element is read. *)
Lemma array_loop_elems :
  forall (L : nat -> Z -> M (list Raw)) (E : M Raw) (B : nat),
    (forall g k, L (S g) k =
       if k <=? 0 then ret []
       else bind E (fun x => bind (L g (k - 1)) (fun xs => ret (x :: xs)))) ->
    (forall sb e r, elem_wf e = true -> (length (elem_frame e) < B)%nat ->
       content sb = elem_frame e ++ r ->
       exists sb', E sb = (Ok (elem_value e), sb') /\ content sb' = r) ->
    forall l g sb r, forallb elem_wf l = true ->
      (length (flat_map elem_frame l) < B)%nat -> (length l < g)%nat ->
      content sb = flat_map elem_frame l ++ r ->
      exists sb', L g (Z.of_nat (length l)) sb = (Ok (map elem_value l), sb') /\
                  content sb' = r.
Proof.
  intros L E B HL HE. induction l as [|e l IH]; intros g sb r Hw Hb Hg Hc;
    (destruct g as [|g]; [cbn [length] in Hg; lia|]); rewrite HL.
  - exists sb. split; [reflexivity | exact Hc].
  - replace (Z.of_nat (length (e :: l)) <=? 0) with false
      by (symmetry; apply Z.leb_gt; cbn [length]; lia).
    cbn [forallb] in Hw. apply andb_prop in Hw as [Hwe Hw].
    cbn [flat_map] in Hc, Hb. rewrite <- app_assoc in Hc. rewrite length_app in Hb.
    destruct (HE sb e _ Hwe ltac:(lia) Hc) as [sb1 [H1 Hc1]].
    rewrite (bind_ok _ _ _ _ _ H1).
    replace (Z.of_nat (length (e :: l)) - 1) with (Z.of_nat (length l))
      by (cbn [length]; lia).
    destruct (IH g sb1 r Hw ltac:(lia) ltac:(cbn [length] in Hg; lia) Hc1) as [sb2 [H2 Hc2]].
    rewrite (bind_ok _ _ _ _ _ H2). exists sb2. split; [reflexivity | exact Hc2].
Qed.

Lemma array_loop_elems_stop :
  forall (L : nat -> Z -> M (list Raw)) (E : M Raw) (B : nat),
    (forall g k, L (S g) k =
       if k <=? 0 then ret []
       else bind E (fun x => bind (L g (k - 1)) (fun xs => ret (x :: xs)))) ->
    (forall sb e r, elem_wf e = true -> (length (elem_frame e) < B)%nat ->
       content sb = elem_frame e ++ r ->
       exists sb', E sb = (Ok (elem_value e), sb') /\ content sb' = r) ->
    (forall sb c x, content sb = c :: x ->
       ~ In c [SimpleStringCode; BulkReplyCode; IntegerReplyCode; ArrayReplyCode] ->
       exists sb', E sb = (Err InvalidStateError, sb')) ->
    forall l g k sb c x, forallb elem_wf l = true ->
      (length (flat_map elem_frame l) < B)%nat ->
      (length l < g)%nat -> Z.of_nat (length l) < k ->
      content sb = flat_map elem_frame l ++ c :: x ->
      ~ In c [SimpleStringCode; BulkReplyCode; IntegerReplyCode; ArrayReplyCode] ->
      exists sb', L g k sb = (Err InvalidStateError, sb').
Proof.
  intros L E B HL HE HB. induction l as [|e l IH]; intros g k sb c x Hw Hb Hg Hk Hc Hin;
    (destruct g as [|g]; [cbn [length] in Hg; lia|]); rewrite HL;
    replace (k <=? 0) with false by (symmetry; apply Z.leb_gt; cbn [length] in Hk; lia).
  - destruct (HB sb c x Hc Hin) as [sb1 H1].
    rewrite (bind_err _ _ _ _ _ H1). eexists; reflexivity.
  - cbn [forallb] in Hw. apply andb_prop in Hw as [Hwe Hw].
    cbn [flat_map] in Hc, Hb. rewrite <- app_assoc in Hc. rewrite length_app in Hb.
    destruct (HE sb e _ Hwe ltac:(lia) Hc) as [sb1 [H1 Hc1]].
    rewrite (bind_ok _ _ _ _ _ H1).
    destruct (IH g (k - 1) sb1 c x Hw ltac:(lia) ltac:(cbn [length] in Hg; lia)
                ltac:(cbn [length] in Hk; lia) Hc1 Hin) as [sb2 H2].
    rewrite (bind_err _ _ _ _ _ H2). eexists; reflexivity.
Qed.

(** How the element reader of [readArrayReplyBody] (the [E] of the goal),
    whose nested arrays are read with fuel [f] as [Harr] says, reads one well-formed
    element. *)
Ltac elem_step f Harr :=
  let sb := fresh "sb" in let e := fresh "e" in let r := fresh "r" in
  let Hwe := fresh "Hwe" in let Hle := fresh "Hle" in let Hc := fresh "Hc" in
  let Hp := fresh "Hp" in let Hpc := fresh "Hpc" in
  let p := fresh "p" in let sb2 := fresh "sb" in let Ep := fresh "Ep" in
  let sb3 := fresh "sb" in let H3 := fresh "H" in let Hc3 := fresh "Hc" in
  let Hc2 := fresh "Hc" in
  intros sb e r Hwe Hle Hc;
  destruct (peek_first sb) as [Hp Hpc];
  destruct (peek 1 sb) as [p sb2] eqn:Ep; cbn [fst snd] in Hp, Hpc;
  rewrite Hc in Hp, Hpc;
  destruct e as [s|s|[b|]|[l'|]];
  [ (* a simple string *)
    cbn [elem_frame List.app] in Hp; subst p; rewrite (bind_ok _ _ _ _ _ Ep);
    cbn -[readBulkReplyBody readSimpleStringReplyBody readIntegerReplyBody readArrayReplyBody];
    cbn [elem_wf] in Hwe;
    assert (Hc2 : content sb2 = (43 :: s) ++ 13 :: 10 :: r)
      by (rewrite Hpc; cbn [elem_frame List.app]; unfold CRLF; rewrite <- app_assoc; reflexivity);
    destruct (readLine_nocr sb2 (43 :: s) r (no_cr_cons 43 s ltac:(lia) Hwe) Hc2)
      as [sb3 [H3 Hc3]];
    unfold bind; rewrite (readSimpleStringReplyBody_line _ _ _ H3);
    exists sb3; split; [reflexivity | exact Hc3]
  | (* an integer *)
    cbn [elem_frame List.app] in Hp; subst p; rewrite (bind_ok _ _ _ _ _ Ep);
    cbn -[readBulkReplyBody readSimpleStringReplyBody readIntegerReplyBody readArrayReplyBody];
    cbn [elem_wf] in Hwe;
    assert (Hc2 : content sb2 = (58 :: s) ++ 13 :: 10 :: r)
      by (rewrite Hpc; cbn [elem_frame List.app]; unfold CRLF; rewrite <- app_assoc; reflexivity);
    destruct (readLine_nocr sb2 (58 :: s) r (no_cr_cons 58 s ltac:(lia) Hwe) Hc2)
      as [sb3 [H3 Hc3]];
    unfold bind; rewrite (readIntegerReplyBody_line _ _ _ H3);
    exists sb3; split; [reflexivity | exact Hc3]
  | (* a bulk string *)
    cbn [elem_frame] in Hp, Hpc; rewrite bulk_frame_shape in Hp; subst p;
    rewrite (bind_ok _ _ _ _ _ Ep);
    destruct (readBulkReplyBody_frame sb2 b r Hpc) as [sb3 [H3 Hc3]];
    cbn -[readBulkReplyBody readSimpleStringReplyBody readIntegerReplyBody readArrayReplyBody];
    unfold bind; rewrite H3; exists sb3; split; [reflexivity | exact Hc3]
  | (* the null bulk string *)
    cbn [elem_frame] in Hp, Hpc;
    change (ascii_bytes "$-1") with [36; 45; 49] in Hp, Hpc;
    cbn [List.app] in Hp; subst p; rewrite (bind_ok _ _ _ _ _ Ep);
    assert (Hc2 : content sb2 = [36; 45; 49] ++ 13 :: 10 :: r) by (rewrite Hpc; reflexivity);
    destruct (readBulkReplyBody_null_frame sb2 r Hc2) as [sb3 [H3 Hc3]];
    cbn -[readBulkReplyBody readSimpleStringReplyBody readIntegerReplyBody readArrayReplyBody];
    unfold bind; rewrite H3; exists sb3; split; [reflexivity | exact Hc3]
  | (* a nested array *)
    rewrite elem_frame_arr in Hp; cbn [List.app] in Hp; subst p;
    rewrite (bind_ok _ _ _ _ _ Ep);
    destruct (Harr sb2 l' r Hwe Hle Hpc) as [sb3 [H3 Hc3]];
    cbn -[readBulkReplyBody readSimpleStringReplyBody readIntegerReplyBody readArrayReplyBody];
    unfold bind; rewrite H3; exists sb3; split; [reflexivity | exact Hc3]
  | (* the null array *)
    cbn [elem_frame] in Hp, Hpc, Hle;
    change (ascii_bytes "*-1") with [42; 45; 49] in Hp, Hpc, Hle;
    cbn [List.app] in Hp; subst p; rewrite (bind_ok _ _ _ _ _ Ep);
    assert (Hc2 : content sb2 = [42; 45; 49] ++ 13 :: 10 :: r) by (rewrite Hpc; reflexivity);
    destruct (readArrayReplyBody_null_frame f sb2 r ltac:(cbn in Hle; lia) Hc2)
      as [sb3 [H3 Hc3]];
    cbn -[readBulkReplyBody readSimpleStringReplyBody readIntegerReplyBody readArrayReplyBody];
    unfold bind; rewrite H3; exists sb3; split; [reflexivity | exact Hc3]
].

(** [readArrayReplyBody] reads the frame of any well-formed array, nested
    arrays included, given one more fuel than the frame has bytes. *)
Lemma read_array_frames :
  forall g sb l r,
    elem_wf (EArr (Some l)) = true ->
    (length (elem_frame (EArr (Some l))) < g)%nat ->
    content sb = elem_frame (EArr (Some l)) ++ r ->
    exists sb', readArrayReplyBody g sb = (Ok (Some (map elem_value l)), sb') /\
                content sb' = r.
Proof.
  induction g as [|f IH]; intros sb l r Hw Hg Hc; [lia|].
  cbn [elem_wf] in Hw. apply andb_prop in Hw as [Hn Hw]. apply Z.ltb_lt in Hn.
  rewrite elem_frame_arr in Hg, Hc.
  destruct (encode_show_size (Z.of_nat (length l)) ltac:(lia)) as [_ [Hne [Hd Hv]]].
  assert (Hc' : content sb =
            (42 :: show_Z (Z.of_nat (length l))) ++ 13 :: 10 :: flat_map elem_frame l ++ r)
    by (rewrite Hc; cbn [List.app]; unfold CRLF; rewrite <- !app_assoc; reflexivity).
  assert (Hb : (length (flat_map elem_frame l) < f)%nat).
  { cbn [length] in Hg. rewrite !length_app in Hg. lia. }
  pose proof (flat_map_elem_frame_length l) as Hll.
  destruct (readLine_nocr sb (42 :: show_Z (Z.of_nat (length l))) _
              (no_cr_cons 42 _ ltac:(lia) (digits_no_cr _ Hd)) Hc') as [sb1 [H1 Hc1]].
  cbn [readArrayReplyBody].
  rewrite (bind_ok _ _ _ _ _ H1).
  change (parseSize (42 :: show_Z (Z.of_nat (length l))))
    with (parseSize (36 :: show_Z (Z.of_nat (length l)))).
  rewrite (parseSize_digits _ Hne Hd), Hv.
  replace (Z.of_nat (length l) =? -1) with false by (symmetry; apply Z.eqb_neq; lia).
  replace ((Z.of_nat (length l) <? 0) || (4294967296 <=? Z.of_nat (length l))) with false
    by (symmetry; apply orb_false_iff; split; [apply Z.ltb_ge | apply Z.leb_gt]; lia).
  match goal with
  | |- context [ bind ?E (fun x => bind (?L f _) (fun xs => ret (x :: xs))) ] =>
      assert (HL : forall g k, L (S g) k =
        if k <=? 0 then ret []
        else bind E (fun x => bind (L g (k - 1)) (fun xs => ret (x :: xs))))
        by (intros; reflexivity);
      assert (HE : forall sb e r, elem_wf e = true -> (length (elem_frame e) < f)%nat ->
        content sb = elem_frame e ++ r ->
        exists sb', E sb = (Ok (elem_value e), sb') /\ content sb' = r);
      [| destruct (array_loop_elems L E f HL HE l (S f) sb1 r Hw Hb ltac:(lia) Hc1)
           as [sb2 [H2 Hc2]] ]
  end.
  - elem_step f IH.
  - exists sb2. split; [|exact Hc2].
    exact (bind_ok _ (fun xs => ret (Some xs)) _ _ _ H2).
Qed.

Lemma readArrayReplyBody_elems_stop :
  forall f sb n es c x,
    forallb elem_wf es = true ->
    (length (flat_map elem_frame es) < f)%nat ->
    Z.of_nat (length es) < n < 4294967296 ->
    content sb = 42 :: show_Z n ++ 13 :: 10 :: flat_map elem_frame es ++ c :: x ->
    ~ In c [SimpleStringCode; BulkReplyCode; IntegerReplyCode; ArrayReplyCode] ->
    exists sb', readArrayReplyBody (S f) sb = (Err InvalidStateError, sb').
Proof.
  intros f sb n es c x Hw Hb Hn Hc Hin.
  pose proof (flat_map_elem_frame_length es) as Hll.
  destruct (encode_show_size n ltac:(lia)) as [_ [Hne [Hd Hv]]].
  destruct (readLine_nocr sb (42 :: show_Z n) _
              (no_cr_cons 42 _ ltac:(lia) (digits_no_cr _ Hd)) Hc) as [sb1 [H1 Hc1]].
  cbn [readArrayReplyBody].
  rewrite (bind_ok _ _ _ _ _ H1).
  change (parseSize (42 :: show_Z n)) with (parseSize (36 :: show_Z n)).
  rewrite (parseSize_digits _ Hne Hd), Hv.
  replace (n =? -1) with false by (symmetry; apply Z.eqb_neq; lia).
  replace ((n <? 0) || (4294967296 <=? n)) with false
    by (symmetry; apply orb_false_iff; split; [apply Z.ltb_ge | apply Z.leb_gt]; lia).
  match goal with
  | |- context [ bind ?E (fun x => bind (?L f _) (fun xs => ret (x :: xs))) ] =>
      assert (HL : forall g k, L (S g) k =
        if k <=? 0 then ret []
        else bind E (fun x => bind (L g (k - 1)) (fun xs => ret (x :: xs))))
        by (intros; reflexivity);
      assert (HE : forall sb e r, elem_wf e = true -> (length (elem_frame e) < f)%nat ->
        content sb = elem_frame e ++ r ->
        exists sb', E sb = (Ok (elem_value e), sb') /\ content sb' = r);
      [| assert (HB : forall sb c x, content sb = c :: x ->
           ~ In c [SimpleStringCode; BulkReplyCode; IntegerReplyCode; ArrayReplyCode] ->
           exists sb', E sb = (Err InvalidStateError, sb'));
         [| destruct (array_loop_elems_stop L E f HL HE HB es (S f) n sb1 c x Hw Hb
                        ltac:(lia) ltac:(lia) Hc1 Hin) as [sb2 H2] ] ]
  end.
  - elem_step f (read_array_frames f).
  - intros sb' c' x' Hc' Hin'.
    destruct (peek_first sb') as [Hp _].
    destruct (peek 1 sb') as [p sb2] eqn:Ep. simpl in Hp.
    rewrite Hc' in Hp. subst p.
    rewrite (bind_ok _ _ _ _ _ Ep). cbn [line_head nth].
    unfold SimpleStringCode, BulkReplyCode, IntegerReplyCode, ArrayReplyCode in *.
    destruct (c' =? 43) eqn:E1; [apply Z.eqb_eq in E1; subst; simpl in Hin'; tauto|].
    destruct (c' =? 36) eqn:E2; [apply Z.eqb_eq in E2; subst; simpl in Hin'; tauto|].
    destruct (c' =? 58) eqn:E3; [apply Z.eqb_eq in E3; subst; simpl in Hin'; tauto|].
    destruct (c' =? 42) eqn:E4; [apply Z.eqb_eq in E4; subst; simpl in Hin'; tauto|].
    eexists; reflexivity.
  - exists sb2. exact (bind_err _ (fun xs => ret (Some xs)) _ _ _ H2).
Qed.

(** Inside an array, an element is read only if it starts with [+], [$],
    [:] or [*].  After any number of well-formed elements (simple strings,
    integers, bulk strings, nested arrays, nulls), an element starting with
    any other byte, an error reply [-...] among them, makes [readReply]
    throw [InvalidStateError] for the whole array, not an [ErrorReplyError],
    however the stream splits the bytes. *)
Theorem readReply_array_bad_element :
  forall chunks n es c x,
    forallb elem_wf es = true ->
    Z.of_nat (length es) < n < 4294967296 ->
    ~ In c [SimpleStringCode; BulkReplyCode; IntegerReplyCode; ArrayReplyCode] ->
    concat chunks = 42 :: show_Z n ++ CRLF ++ flat_map elem_frame es ++ c :: x ->
    fst (readReply chunks) = Err InvalidStateError.
Proof.
  intros chunks n es c x Hw Hn Hin Hx. unfold CRLF in Hx.
  destruct (peek_code chunks _ _ Hx) as [sb1 [Ep Hc1]].
  rewrite Hx in Hc1.
  assert (Hb : (length (flat_map elem_frame es) < length (concat chunks))%nat).
  { rewrite Hx. cbn [length]. repeat (rewrite length_app; cbn [length]). lia. }
  destruct (readArrayReplyBody_elems_stop _ sb1 n es c x Hw Hb Hn Hc1 Hin) as [sb2 H2].
  rewrite readReply_fst. unfold readReply_sb. rewrite (bind_ok _ _ _ _ _ Ep).
  cbn -[readLine readArrayReplyBody]. unfold bind. rewrite H2. reflexivity.
Qed.

Lemma readReply_array_bad_element_witness :
  forallb elem_wf [EInt (ascii_bytes "1"); EArr (Some [EBulk None])] = true /\
  Z.of_nat (length [EInt (ascii_bytes "1"); EArr (Some [EBulk None])]) < 3 < 4294967296 /\
  ~ In 45 [SimpleStringCode; BulkReplyCode; IntegerReplyCode; ArrayReplyCode] /\
  fst (readReply [ascii_bytes "*3" ++ CRLF ++ ascii_bytes ":1" ++ CRLF;
                  ascii_bytes "*1" ++ CRLF ++ ascii_bytes "$-1" ++ CRLF ++
                  ascii_bytes "-ERR" ++ CRLF]) = Err InvalidStateError.
Proof.
  assert (Hin : ~ In 45 [SimpleStringCode; BulkReplyCode; IntegerReplyCode; ArrayReplyCode]).
  { unfold SimpleStringCode, BulkReplyCode, IntegerReplyCode, ArrayReplyCode.
    simpl. intros H. repeat destruct H as [H|H]; try discriminate H. exact H. }
  split; [reflexivity | split; [simpl; lia | split; [exact Hin|]]].
  exact (readReply_array_bad_element
           [ascii_bytes "*3" ++ CRLF ++ ascii_bytes ":1" ++ CRLF;
            ascii_bytes "*1" ++ CRLF ++ ascii_bytes "$-1" ++ CRLF ++ ascii_bytes "-ERR" ++ CRLF]
           3 [EInt (ascii_bytes "1"); EArr (Some [EBulk None])] 45
           (ascii_bytes "ERR" ++ CRLF) eq_refl ltac:(simpl; lia) Hin eq_refl).
Defined.

(** An array frame of well-formed elements, nested arrays included, decodes
    to an [ArrayReply] of the elements' values, in order, however the stream
    splits it: [reply.string()] of a simple string, [reply.integer()] of an
    integer, [reply.bulk()] of a bulk string and [reply.value()] of a nested
    array. *)
Theorem readReply_array_frames :
  forall chunks l rest,
    elem_wf (EArr (Some l)) = true ->
    concat chunks = elem_frame (EArr (Some l)) ++ rest ->
    fst (readReply chunks) = Ok (ArrayReply (Some (map elem_value l))).
Proof.
  intros chunks l rest Hw Hx.
  assert (Hx' : concat chunks =
            42 :: (show_Z (Z.of_nat (length l)) ++ CRLF ++ flat_map elem_frame l) ++ rest)
    by (rewrite Hx; reflexivity).
  destruct (peek_code chunks _ _ Hx') as [sb1 [Ep Hc1]].
  rewrite Hx in Hc1.
  assert (Hf : (length (elem_frame (EArr (Some l))) < S (length (concat chunks)))%nat).
  { rewrite Hx, length_app. lia. }
  destruct (read_array_frames _ sb1 l rest Hw Hf Hc1) as [sb2 [H2 _]].
  rewrite readReply_fst. unfold readReply_sb. rewrite (bind_ok _ _ _ _ _ Ep).
  cbn -[readLine readArrayReplyBody]. unfold bind. rewrite H2. reflexivity.
Qed.

Lemma readReply_array_frames_witness :
  let l := [ESimple (ascii_bytes "OK"); EInt (ascii_bytes "-7");
            EArr (Some [EBulk (Some (ascii_bytes "hi")); EBulk None]); EArr None] in
  elem_wf (EArr (Some l)) = true /\
  fst (readReply [ascii_bytes "*4" ++ CRLF ++ ascii_bytes "+OK" ++ CRLF ++ ascii_bytes ":-";
                  ascii_bytes "7" ++ CRLF ++ ascii_bytes "*2" ++ CRLF ++ ascii_bytes "$2" ++ CRLF ++
                  ascii_bytes "hi" ++ CRLF ++ ascii_bytes "$-1" ++ CRLF ++
                  ascii_bytes "*-1" ++ CRLF]) =
    Ok (ArrayReply (Some [RStr (ascii_bytes "OK"); RNum (Finite (-7));
                          RArr [RStr (ascii_bytes "hi"); RNull]; RNull])).
Proof.
  intro l. split; [reflexivity|].
  rewrite (readReply_array_frames
             [ascii_bytes "*4" ++ CRLF ++ ascii_bytes "+OK" ++ CRLF ++ ascii_bytes ":-";
              ascii_bytes "7" ++ CRLF ++ ascii_bytes "*2" ++ CRLF ++ ascii_bytes "$2" ++ CRLF ++
              ascii_bytes "hi" ++ CRLF ++ ascii_bytes "$-1" ++ CRLF ++
              ascii_bytes "*-1" ++ CRLF] l [] eq_refl ltac:(vm_compute; reflexivity)).
  vm_compute. reflexivity.
Defined.
